(** * Movie fetch pipeline (attached_assets/YouTubeapi_1758005096153.py)

    A shallow embedding of the fetch-and-extract script: the text helpers
    [clean_title] and [extract_stars], the description trimming and the
    duration filter of [main], the batch loop, and the three HTTP helpers
    run against an abstract remote API.

    Python [str] values are sequences of Unicode code points; they are
    modelled as lists of code points ([N]).  A Python [float] duration is
    modelled by the rational number it denotes.  The [while True] loop of
    the listing runs on fuel; everything after the listing is total. *)

From Stdlib Require Import ZArith QArith Qround String Ascii DecimalString.
From stdpp Require Import base list gmap.
From Equations Require Import Equations.

Abbreviation str := (list N).

(** A string literal, as the list of its code points (ASCII literals only). *)
Definition lit (s : string) : str := N_of_ascii <$> list_ascii_of_string s.

(** ** Character classes *)

Module Char.

Definition between (lo hi c : N) : bool := ((lo <=? c) && (c <=? hi))%N.

(** [[A-Z]] and [[a-z]] of the regular expression: ASCII ranges. *)
Definition upper (c : N) : bool := between 65 90 c.
Definition lower (c : N) : bool := between 97 122 c.
Definition digit (c : N) : bool := between 48 57 c.

(** [Py_UNICODE_ISSPACE]: what [str.strip()] removes and what [\s]
    matches in a [str] pattern. *)
Definition space (c : N) : bool :=
  between 9 13 c || between 28 32 c
  || (c =? 133)%N || (c =? 160)%N || (c =? 5760)%N
  || between 8192 8202 c || (c =? 8232)%N || (c =? 8233)%N
  || (c =? 8239)%N || (c =? 8287)%N || (c =? 12288)%N.

(** The separators of [clean_title]: the class [[-|]]. *)
Definition title_sep (c : N) : bool := (c =? 45)%N || (c =? 124)%N.

Definition newline (c : N) : bool := (c =? 10)%N.

End Char.

(** ** String primitives *)

(** [s.lstrip()], [s.rstrip()], [s.strip()] *)
Fixpoint lstrip (s : str) : str :=
  match s with
  | c :: s' => if Char.space c then lstrip s' else s
  | [] => []
  end.

Definition rstrip (s : str) : str := reverse (lstrip (reverse s)).

Definition strip (s : str) : str := rstrip (lstrip s).

(** Splitting at every character of a class: [re.split(r"[...]", s)] for a
    one-character class, and [s.split(sep)] for a one-character [sep].  Empty
    pieces are kept and the result is never empty. *)
Fixpoint split_on (sep : N → bool) (s : str) : list str :=
  match s with
  | [] => [[]]
  | c :: s' =>
      if sep c then [] :: split_on sep s'
      else match split_on sep s' with
           | piece :: pieces => (c :: piece) :: pieces
           | [] => [[c]]
           end
  end.

(** [sep.join(parts)] *)
Fixpoint join (sep : str) (parts : list str) : str :=
  match parts with
  | [] => []
  | [p] => p
  | p :: ps => p ++ sep ++ join sep ps
  end.

(** ** clean_title *)

(** [re.split(r"[-|]", title)[0].strip()] *)
Definition clean_title (title : str) : str :=
  strip (default [] (head (split_on Char.title_sep title))).

(** ** Insertion-ordered dictionaries

    A Python [dict] keeps its keys in the order of their first insertion;
    assigning to a key that is present keeps the key where it is. *)

Module Dict.
Section Dict.
Context {K V : Type} `{EqDecision K}.

(** [d[k] = v] *)
Fixpoint setitem (d : list (K * V)) (k : K) (v : V) : list (K * V) :=
  match d with
  | [] => [(k, v)]
  | (k', v') :: d' =>
      if decide (k' = k) then (k', v) :: d' else (k', v') :: setitem d' k v
  end.

(** [dict.fromkeys(ks, v)] *)
Definition fromkeys (ks : list K) (v : V) : list (K * V) :=
  foldl (λ d k, setitem d k v) [] ks.

(** [list(d)] *)
Definition keys (d : list (K * V)) : list K := d.*1.
End Dict.
End Dict.

(** ** extract_stars *)

Definition inspect {A} (a : A) : {b | a = b} := exist _ a eq_refl.

(** The longest prefix of [s] in the class [p], and what follows it. *)
Fixpoint span (p : N → bool) (s : str) : str * str :=
  match s with
  | c :: s' =>
      if p c then let '(run, rest) := span p s' in (c :: run, rest)
      else ([], s)
  | [] => ([], [])
  end.

(** [[A-Z][a-z]+] at the head of [s]: the matched word.  The [+] is greedy
    and nothing after it in the pattern can fail, so it takes the whole run
    of lower-case letters. *)
Definition cap_word (s : str) : option str :=
  match s with
  | c :: s' =>
      if Char.upper c then
        match span Char.lower s' with
        | ([], _) => None
        | (run, _) => Some (c :: run)
        end
      else None
  | [] => None
  end.

(** [(?:\s[A-Z][a-z]+)*] at the head of [s]: the matched text.  Each
    iteration is tried greedily; the first one that fails ends the loop. *)
Equations? more_words (s : str) : str by wf (length s) lt :=
  more_words [] := [];
  more_words (w :: s') with Char.space w, cap_word s' => {
    | true, Some word := w :: word ++ more_words (drop (length word) s');
    | _, _ := [] }.
Proof. rewrite length_drop. lia. Qed.

(** The stoplist of [extract_stars]. *)
Definition ignore : gset str :=
  {[ lit "Latest"; lit "Yoruba"; lit "Movie";
     lit "Drama"; lit "Part"; lit "Episode" ]}.

Section Regex.

(** [Py_UNICODE_ISALNUM] on the code points from 128 on: a table of the
    Python build's Unicode database, which is not part of the script. *)
Variable unicode_alnum : N → bool.

(** [\w] in a [str] pattern: [Py_UNICODE_ISALNUM(c) || c == '_'] *)
Definition word_char (c : N) : bool :=
  if (c <? 128)%N
  then Char.upper c || Char.lower c || Char.digit c || (c =? 95)%N
  else unicode_alnum c.

(** [\b] at a position, given the character before it and the one at it
    (none at either end of the string). *)
Definition boundary (before at_pos : option N) : bool :=
  xorb (from_option word_char false before)
       (from_option word_char false at_pos).

(** A match of [\b[A-Z][a-z]+(?:\s[A-Z][a-z]+)*] starting at the head of
    [s], where [before] is the character that precedes [s]. *)
Definition match_at (before : option N) (s : str) : option str :=
  if boundary before (head s) then
    match cap_word s with
    | Some word => Some (word ++ more_words (drop (length word) s))
    | None => None
    end
  else None.

(** [re.findall]: scan from the left; after a match go on where it ended,
    otherwise move one character ahead. *)
Equations? findall_from (before : option N) (s : str) : list str
  by wf (length s) lt :=
  findall_from before [] := [];
  findall_from before (c :: s') with inspect (match_at before (c :: s')) => {
    | exist _ (Some m) Hm :=
        m :: findall_from (last m) (drop (length m) (c :: s'));
    | exist _ None _ := findall_from (Some c) s' }.
Proof.
  assert (0 < length m); [|rewrite length_drop; simpl; lia].
  unfold match_at in Hm. destruct (boundary _ _); [|done].
  destruct (cap_word (c :: s')) as [word|] eqn:Hw; [|done].
  injection Hm as <-. simpl in Hw.
  destruct (Char.upper c); [|done].
  destruct (span Char.lower s') as [[|x run] rest]; [done|].
  injection Hw as <-. simpl. lia.
Qed.

(** [re.findall(r"\b[A-Z][a-z]+(?:\s[A-Z][a-z]+)*", combined)] *)
Definition findall_names (combined : str) : list str :=
  findall_from None combined.

(** [[m for m in matches if m not in ignore]] *)
Definition candidates (title description : str) : list str :=
  let combined := title ++ lit " " ++ description in
  let matches := findall_names combined in
  filter (λ m, m ∉ ignore) matches.

Definition extract_stars (title description : str) : list str :=
  let stars := candidates title description in
  Dict.keys (Dict.fromkeys stars ()).

End Regex.

(** ** Records of the pipeline *)

(** An entry of the list built by [get_channel_videos]. *)
Module Video.
Record t := mk { videoId : str; title : str; description : str }.
End Video.

(** A value of the dictionary built by [get_video_details]. *)
Module Detail.
Record t := mk { duration : Q; category : str; description : str }.
End Detail.

(** An entry of [movies] in [main]. *)
Module Movie.
Record t := mk {
  title : str;
  category : str;
  stars : list str;
  duration : Z;
  description : str
}.
End Movie.

(** ** The remote API

    The three endpoints answer with JSON objects; the fields the script
    reads are kept, optional ones ([.get] with a default, [in] tests) as
    options.  [video_duration] is the number of seconds that
    [isodate.parse_duration(...).total_seconds()] yields.  An answer may
    depend on the requests sent before, so the service is free to answer the
    same request differently at different times. *)

Module Api.
Record channels_response := { channel_items : option (list str) }.

Record search_item := {
  item_videoId : str;
  item_title : str;
  item_description : option str
}.

Record search_response := {
  search_items : option (list search_item);
  nextPageToken : option str
}.

Record video_item := {
  video_id : str;
  video_duration : Q;
  categoryId : option str;
  video_description : option str
}.

Record videos_response := { video_items : option (list video_item) }.

(** One [requests.get]: the endpoint and the parameters that vary. *)
Inductive request :=
| Channels (handle : str)
| Search (channel_id : str) (page_token : option str)
| Videos (ids : list str).

(** The service: the answer to a request, given the requests sent so far. *)
Record t := {
  channels : list request → str → channels_response;
  search : list request → str → option str → search_response;
  videos : list request → list str → videos_response
}.
End Api.

(** ** Effects: requests sent, lines printed, exceptions *)

Record World := { requests : list Api.request; stdout : list str }.

Inductive exn := ValueError (msg : str).

Inductive outcome (A : Type) :=
| Returned (a : A)
| Raised (e : exn)
| OutOfFuel.
Arguments Returned {A} a.
Arguments Raised {A} e.
Arguments OutOfFuel {A}.

Definition Run (A : Type) : Type := World → outcome A * World.

#[global] Instance Run_ret : MRet Run := λ A a w, (Returned a, w).

#[global] Instance Run_bind : MBind Run := λ A B f m w,
  match m w with
  | (Returned a, w') => f a w'
  | (Raised e, w') => (Raised e, w')
  | (OutOfFuel, w') => (OutOfFuel, w')
  end.

Definition raise {A} (e : exn) : Run A := λ w, (Raised e, w).

Definition out_of_fuel {A} : Run A := λ w, (OutOfFuel, w).

(** [requests.get(url).json()]: the request joins the history and the
    service answers from the history before it. *)
Definition http_get {R} (r : Api.request) (answer : list Api.request → R)
  : Run R := λ w,
  (Returned (answer (requests w)),
   {| requests := requests w ++ [r]; stdout := stdout w |}).

(** [print(line)] *)
Definition print (line : str) : Run unit := λ w,
  (Returned (), {| requests := requests w; stdout := stdout w ++ [line] |}).

(** [for x in xs: s = body(s, x)] *)
Fixpoint for_each {A S} (xs : list A) (body : S → A → Run S) (s : S) : Run S :=
  match xs with
  | [] => mret s
  | x :: xs' => s' ← body s x; for_each xs' body s'
  end.

(** [range(start, stop, step)] for a positive [step] *)
Definition range (start stop step : nat) : list nat :=
  (λ k, start + k * step) <$> seq 0 ((stop - start + step - 1) `div` step).

(** Truth value of [resp.get("nextPageToken")]: [None] and [""] are false. *)
Definition truthy (token : option str) : bool :=
  match token with
  | Some (_ :: _) => true
  | _ => false
  end.

(** [str(n)] for an [int] *)
Definition str_of_int (n : Z) : str := lit (NilZero.string_of_int (Z.to_int n)).

Definition CHANNEL_HANDLE : str := lit "itelediconstudio".

(** ** The classifier of [main] *)

(** [x // y] on floats and [int(x)] *)
Definition floordiv (x y : Q) : Q := inject_Z (Qfloor (x / y)).

Definition int (x : Q) : Z := if Qle_bool 0 x then Qfloor x else Qceiling x.

(** [int(d["duration"] // 60)] *)
Definition minutes_of (d : Detail.t) : Z := int (floordiv (Detail.duration d) 60).

(** [desc = d["description"].split("\n")[0:5]] then
    [" ".join([x.strip() for x in desc if x.strip()])] *)
Definition join_lines (description : str) : str :=
  let desc := take 5 (split_on Char.newline description) in
  join (lit " ") (strip <$> filter (λ x, strip x ≠ []) desc).

Section Classifier.

Variable unicode_alnum : N → bool.

(** The dictionary appended to [movies]. *)
Definition movie_of (v : Video.t) (d : Detail.t) (minutes : Z) : Movie.t :=
  let title := clean_title (Video.title v) in
  let stars := extract_stars unicode_alnum (Video.title v) (Detail.description d) in
  let desc := join_lines (Detail.description d) in
  {| Movie.title := title;
     Movie.category := Detail.category d;
     Movie.stars := if stars is [] then [lit "Unknown"] else stars;
     Movie.duration := minutes;
     Movie.description := if desc is [] then lit "No description" else desc |}.

(** One turn of [for v in videos[i:i+50]]; [continue] leaves [movies] as
    it is. *)
Definition classify (details : gmap str Detail.t) (movies : list Movie.t)
    (v : Video.t) : list Movie.t :=
  let vid := Video.videoId v in
  match details !! vid with
  | None => movies
  | Some d =>
      let minutes := minutes_of d in
      if (minutes <? 15)%Z then movies
      else movies ++ [movie_of v d minutes]
  end.

End Classifier.

(** ** The HTTP helpers and [main] *)

Section Pipeline.

Variable unicode_alnum : N → bool.
Variable api : Api.t.

Definition get_channel_id (handle : str) : Run str :=
  resp ← http_get (Api.Channels handle) (λ sent, Api.channels api sent handle);
  match Api.channel_items resp with
  | None | Some [] =>
      raise (ValueError (lit "Could not resolve channel handle " ++ handle))
  | Some (id :: _) => mret id
  end.

Definition video_of_item (item : Api.search_item) : Video.t :=
  {| Video.videoId := Api.item_videoId item;
     Video.title := Api.item_title item;
     Video.description := default [] (Api.item_description item) |}.

(** The [while True] loop of [get_channel_videos]; one unit of fuel per
    iteration. *)
Fixpoint get_channel_videos_loop (fuel : nat) (channel_id : str)
    (page_token : option str) (videos : list Video.t) : Run (list Video.t) :=
  match fuel with
  | 0 => out_of_fuel
  | S fuel' =>
      let page_param := if truthy page_token then page_token else None in
      resp ← http_get (Api.Search channel_id page_param)
                      (λ sent, Api.search api sent channel_id page_param);
      let videos := videos ++ (video_of_item <$> default [] (Api.search_items resp)) in
      let page_token := Api.nextPageToken resp in
      if truthy page_token
      then get_channel_videos_loop fuel' channel_id page_token videos
      else mret videos
  end.

Definition get_channel_videos (fuel : nat) (channel_id : str)
  : Run (list Video.t) :=
  get_channel_videos_loop fuel channel_id None [].

Definition detail_of_item (item : Api.video_item) : Detail.t :=
  {| Detail.duration := Api.video_duration item;
     Detail.category := default (lit "Unknown") (Api.categoryId item);
     Detail.description := default [] (Api.video_description item) |}.

(** The dictionary [details] built from a response. *)
Definition details_of (resp : Api.videos_response) : gmap str Detail.t :=
  foldl (λ details item, <[Api.video_id item := detail_of_item item]> details)
        ∅ (default [] (Api.video_items resp)).

Definition get_video_details (video_ids : list str) : Run (gmap str Detail.t) :=
  resp ← http_get (Api.Videos video_ids) (λ sent, Api.videos api sent video_ids);
  mret (details_of resp).

(** One turn of [for i in range(0, len(all_ids), 50)]. *)
Definition fetch_batch (videos : list Video.t) (all_ids : list str)
    (movies : list Movie.t) (i : nat) : Run (list Movie.t) :=
  let batch := take 50 (drop i all_ids) in
  details ← get_video_details batch;
  mret (foldl (classify unicode_alnum details) movies (take 50 (drop i videos))).

(** Lines 86 to 113 of [main]: the list [movies]. *)
Definition fetch_movies (videos : list Video.t) : Run (list Movie.t) :=
  let all_ids := Video.videoId <$> videos in
  for_each (range 0 (length all_ids) 50) (fetch_batch videos all_ids) [].

Definition NO_MOVIES : str := 9989%N :: lit " No full movies found.".

Definition print_movie (m : Movie.t) : Run unit :=
  print (10%N :: 9989%N :: lit " New Movie Added!");;
  print (lit "Title: " ++ Movie.title m);;
  print (lit "Category: " ++ Movie.category m);;
  print (lit "Stars: " ++ join (lit ", ") (Movie.stars m));;
  print (lit "Duration: " ++ str_of_int (Movie.duration m) ++ lit " minutes");;
  print (lit "Description: " ++ take 300 (Movie.description m)).

(** Lines 115 to 124 of [main]. *)
Definition report (movies : list Movie.t) : Run unit :=
  match movies with
  | [] => print NO_MOVIES
  | _ => for_each movies (λ _ m, print_movie m) ()
  end.

(** [main]; the copy [videos = videos[:]] leaves the list as it is. *)
Definition main (fuel : nat) : Run unit :=
  print (lit "Starting movie fetch...");;
  channel_id ← get_channel_id CHANNEL_HANDLE;
  videos ← get_channel_videos fuel channel_id;
  movies ← fetch_movies videos;
  report movies.

End Pipeline.

(** ** Concrete data for the examples *)

(** [Py_UNICODE_ISALNUM] on the Latin-1 supplement; no entry beyond it.  The
    examples below only use ASCII strings, on which the table is not
    consulted. *)
Definition latin1_alnum (c : N) : bool :=
  (c =? 170)%N || (c =? 178)%N || (c =? 179)%N || (c =? 181)%N
  || (c =? 185)%N || (c =? 186)%N || Char.between 188 190 c
  || Char.between 192 214 c || Char.between 216 246 c
  || Char.between 248 255 c.

(** The scenario of the specification: one listed video and the API that
    serves it. *)
Module Scenario.
Definition title : str :=
  lit "Aye Ife - Latest Yoruba Movie 2023 Starring Bola Aina".

Definition description : str :=
  lit "A romantic drama." ++ [10%N]
  ++ lit "Starring Bola Aina and Kemi Afolabi." ++ [10%N; 10%N; 10%N].

Definition video : Video.t :=
  {| Video.videoId := lit "v1"; Video.title := title;
     Video.description := lit "A romantic drama." |}.

Definition api : Api.t :=
  {| Api.channels := λ _ _, {| Api.channel_items := Some [lit "UC1"] |};
     Api.search := λ _ _ _,
       {| Api.search_items :=
            Some [ {| Api.item_videoId := lit "v1"; Api.item_title := title;
                      Api.item_description := Some (lit "A romantic drama.") |} ];
          Api.nextPageToken := None |};
     Api.videos := λ _ _,
       {| Api.video_items :=
            Some [ {| Api.video_id := lit "v1";
                      Api.video_duration := inject_Z 5400;
                      Api.categoryId := Some (lit "1");
                      Api.video_description := Some description |} ] |} |}.

(** An API whose channel lookup finds nothing. *)
Definition unknown_handle_api : Api.t :=
  {| Api.channels := λ _ _, {| Api.channel_items := Some [] |};
     Api.search := Api.search api;
     Api.videos := Api.videos api |}.

Definition start : World := {| requests := []; stdout := [] |}.

(** The record that [main] builds for [video]. *)
Definition movie : Movie.t :=
  {| Movie.title := lit "Aye Ife";
     Movie.category := lit "1";
     Movie.stars := [lit "Aye Ife"; lit "Latest Yoruba Movie";
                     lit "Starring Bola Aina"; lit "Kemi Afolabi"];
     Movie.duration := 90;
     Movie.description :=
       lit "A romantic drama. Starring Bola Aina and Kemi Afolabi." |}.

(** A detail entry of 600 seconds. *)
Definition trailer : Detail.t :=
  {| Detail.duration := inject_Z 600; Detail.category := lit "1";
     Detail.description := description |}.

(** A detail entry whose description starts with five empty lines. *)
Definition late_text : Detail.t :=
  {| Detail.duration := inject_Z 5400; Detail.category := lit "1";
     Detail.description := [10%N; 10%N; 10%N; 10%N; 10%N] ++ lit "Hello" |}.

(** A video and a detail entry in which every capitalised run is a
    stoplist term. *)
Definition stoplist_video : Video.t :=
  {| Video.videoId := lit "v2"; Video.title := lit "Latest - Movie";
     Video.description := [] |}.

Definition stoplist_detail : Detail.t :=
  {| Detail.duration := inject_Z 5400; Detail.category := lit "1";
     Detail.description := lit "a Yoruba. Drama" |}.
End Scenario.

(** ** Notions used in the statements *)

(** The position of the first occurrence of [x] in [l]. *)
Definition first_index {A} `{EqDecision A} (x : A) (l : list A) : option nat :=
  fst <$> list_find (λ y, y = x) l.

(** [out] lists its elements in the order of their first occurrences in [l]. *)
Definition first_occurrence_order {A} `{EqDecision A} (l out : list A) : Prop :=
  ∀ i j x y, out !! i = Some x → out !! j = Some y → i < j →
    ∃ i' j', first_index x l = Some i' ∧ first_index y l = Some j' ∧ i' < j'.

(** The record the specification expects in its scenario. *)
Definition scenario_record_as_specified (m : Movie.t) : Prop :=
  Movie.title m = lit "Aye Ife"
  ∧ Movie.duration m = 90%Z
  ∧ [lit "Bola Aina"; lit "Kemi Afolabi"] `sublist_of` Movie.stars m
  ∧ (lit "Latest" ∉ Movie.stars m)
  ∧ (lit "Yoruba" ∉ Movie.stars m)
  ∧ (lit "Movie" ∉ Movie.stars m)
  ∧ Movie.description m
    = lit "A romantic drama. Starring Bola Aina and Kemi Afolabi.".

(** The description as the specification words it: the first five lines
    that are not blank, trimmed and joined with single spaces, or the
    default when that is empty. *)
Definition description_as_specified (description : str) : str :=
  let lines := split_on Char.newline description in
  let selected := take 5 (filter (λ x, strip x ≠ []) lines) in
  let joined := join (lit " ") (strip <$> selected) in
  if joined is [] then lit "No description" else joined.

(** A channel lookup without matching items: no ["items"] key, or an empty
    list. *)
Definition no_matching_items (resp : Api.channels_response) : Prop :=
  Api.channel_items resp = None ∨ Api.channel_items resp = Some [].

(** The lines that [print_movie] writes for one record. *)
Definition printed_lines (m : Movie.t) : list str :=
  stdout (print_movie m {| requests := []; stdout := [] |}).2.

(** [m] is the record that [main] builds for the listed video [v] from a
    detail entry of some response of the API. *)
Definition emitted_from (unicode_alnum : N → bool) (api : Api.t)
    (v : Video.t) (m : Movie.t) : Prop :=
  ∃ sent ids d,
    details_of (Api.videos api sent ids) !! Video.videoId v = Some d
    ∧ (15 ≤ minutes_of d)%Z
    ∧ m = movie_of unicode_alnum v d (minutes_of d).


(** ** Notions used in the further properties *)

(** The [pageToken] parameter of a listing request: absent unless the token
    is a non-empty string. *)
Definition page_param (page_token : option str) : option str :=
  if truthy page_token then page_token else None.

(** The entries that one page of the listing adds to [videos]. *)
Definition page_videos (resp : Api.search_response) : list Video.t :=
  video_of_item <$> default [] (Api.search_items resp).

(** The pages that the service hands out for a channel, from the history
    [sent] and the token [page_token] on, up to the first page without a
    usable [nextPageToken]. *)
Inductive listing (api : Api.t) (channel_id : str)
  : list Api.request → option str → list Api.search_response → Prop :=
| listing_last sent page_token :
    truthy (Api.nextPageToken
              (Api.search api sent channel_id (page_param page_token))) = false →
    listing api channel_id sent page_token
      [Api.search api sent channel_id (page_param page_token)]
| listing_next sent page_token pages :
    truthy (Api.nextPageToken
              (Api.search api sent channel_id (page_param page_token))) = true →
    listing api channel_id
      (sent ++ [Api.Search channel_id (page_param page_token)])
      (Api.nextPageToken (Api.search api sent channel_id (page_param page_token)))
      pages →
    listing api channel_id sent page_token
      (Api.search api sent channel_id (page_param page_token) :: pages).

(** The listing requests that go with a run of pages. *)
Fixpoint page_requests (channel_id : str) (page_token : option str)
    (pages : list Api.search_response) : list Api.request :=
  match pages with
  | [] => []
  | page :: pages' =>
      Api.Search channel_id (page_param page_token)
      :: page_requests channel_id (Api.nextPageToken page) pages'
  end.

(** The shape of a match of the name pattern: an upper-case letter, a
    lower-case letter, then letters and whitespace only. *)
Definition name_shape (m : str) : Prop :=
  ∃ c c' rest,
    m = c :: c' :: rest
    ∧ Char.upper c = true
    ∧ Char.lower c' = true
    ∧ Forall (λ x, Char.upper x || Char.lower x || Char.space x = true) rest.

(** What [main] makes of a listed video whose detail entry is [detail]:
    nothing without an entry or below 15 minutes, a record otherwise. *)
Definition kept_record (unicode_alnum : N → bool) (detail : option Detail.t)
    (v : Video.t) : option Movie.t :=
  d ← detail;
  if (minutes_of d <? 15)%Z then None
  else Some (movie_of unicode_alnum v d (minutes_of d)).

(** Services for the examples of the further properties. *)
Module Edge.
Definition item (id : string) : Api.search_item :=
  {| Api.item_videoId := lit id; Api.item_title := Scenario.title;
     Api.item_description := None |}.

(** A listing of two pages: the first one names the token ["T"]. *)
Definition two_pages : Api.t :=
  {| Api.channels := Api.channels Scenario.api;
     Api.search := λ _ _ page_token,
       match page_token with
       | None => {| Api.search_items := Some [item "v1"; item "v2"];
                    Api.nextPageToken := Some (lit "T") |}
       | Some _ => {| Api.search_items := Some [item "v3"];
                      Api.nextPageToken := Some [] |}
       end;
     Api.videos := Api.videos Scenario.api |}.

(** A listing whose every page names a further page. *)
Definition endless : Api.t :=
  {| Api.channels := Api.channels Scenario.api;
     Api.search := λ _ _ _,
       {| Api.search_items := Some [item "v1"];
          Api.nextPageToken := Some (lit "T") |};
     Api.videos := Api.videos Scenario.api |}.
End Edge.

(** * Properties of the string primitives *)

Lemma lstrip_decompose s :
  ∃ l, s = l ++ lstrip s ∧ Forall (λ c, Char.space c = true) l.
Proof.
  induction s as [|c s [l [Hs Hl]]]; simpl.
  - by exists [].
  - destruct (Char.space c) eqn:Hc.
    + exists (c :: l). split; [simpl; congruence | by constructor].
    + by exists [].
Qed.

Lemma lstrip_head s c : head (lstrip s) = Some c → Char.space c = false.
Proof.
  induction s as [|x s IH]; simpl; [done|].
  destruct (Char.space x) eqn:Hx; [done|].
  simpl. by intros [= <-].
Qed.

Lemma lstrip_id s :
  (∀ c, head s = Some c → Char.space c = false) → lstrip s = s.
Proof.
  destruct s as [|c s]; simpl; [done|].
  intros H. by rewrite (H c eq_refl).
Qed.

Lemma rstrip_decompose s :
  ∃ r, s = rstrip s ++ r ∧ Forall (λ c, Char.space c = true) r.
Proof.
  destruct (lstrip_decompose (reverse s)) as [l [Hs Hl]].
  exists (reverse l). split.
  - unfold rstrip. rewrite <- reverse_app, <- Hs. by rewrite reverse_involutive.
  - by apply Forall_reverse.
Qed.

Lemma rstrip_last s c : last (rstrip s) = Some c → Char.space c = false.
Proof.
  unfold rstrip. rewrite last_reverse. apply lstrip_head.
Qed.

Lemma rstrip_id s :
  (∀ c, last s = Some c → Char.space c = false) → rstrip s = s.
Proof.
  intros H. unfold rstrip. rewrite lstrip_id.
  - apply reverse_involutive.
  - intros c. rewrite head_reverse. apply H.
Qed.

Lemma rstrip_head s c :
  (∀ x, head s = Some x → Char.space x = false) →
  head (rstrip s) = Some c → Char.space c = false.
Proof.
  intros Hs Hc. destruct (rstrip_decompose s) as [r [E _]].
  apply Hs. rewrite E. destruct (rstrip s); [done|]. exact Hc.
Qed.

Lemma strip_decompose s :
  ∃ l r, s = l ++ strip s ++ r
         ∧ Forall (λ c, Char.space c = true) l
         ∧ Forall (λ c, Char.space c = true) r.
Proof.
  destruct (lstrip_decompose s) as [l [Hl Fl]].
  destruct (rstrip_decompose (lstrip s)) as [r [Hr Fr]].
  exists l, r. unfold strip. by rewrite <- Hr.
Qed.

Lemma strip_head s c : head (strip s) = Some c → Char.space c = false.
Proof. apply rstrip_head. apply lstrip_head. Qed.

Lemma strip_last s c : last (strip s) = Some c → Char.space c = false.
Proof. apply rstrip_last. Qed.

Lemma strip_id s :
  (∀ c, head s = Some c → Char.space c = false) →
  (∀ c, last s = Some c → Char.space c = false) →
  strip s = s.
Proof.
  intros Hh Hl. unfold strip. rewrite lstrip_id by done. by apply rstrip_id.
Qed.

Lemma split_on_nonempty sep s : split_on sep s ≠ [].
Proof.
  destruct s as [|c s]; simpl; [done|].
  destruct (sep c); [done|]. by destruct (split_on sep s).
Qed.

Lemma split_on_no_sep sep s :
  Forall (λ c, sep c = false) s → split_on sep s = [s].
Proof.
  induction 1 as [|c s Hc _ IH]; simpl; [done|]. by rewrite Hc, IH.
Qed.

Lemma split_on_first sep pre c post :
  Forall (λ x, sep x = false) pre → sep c = true →
  head (split_on sep (pre ++ c :: post)) = Some pre.
Proof.
  intros Hpre Hc. induction Hpre as [|x pre Hx _ IH]; simpl.
  - by rewrite Hc.
  - rewrite Hx. destruct (split_on sep (pre ++ c :: post)); [done|].
    simpl in *. by injection IH as ->.
Qed.

(** Refute a decidable proposition by evaluating its decision procedure. *)
Ltac by_evaluation :=
  match goal with
  | |- ¬ ?P => apply (bool_decide_eq_false_1 P); by vm_compute
  end.

(** * clean_title *)

(** C3, as stated, fails: a title without a separator that starts with a
    blank comes back without the blank. *)
Lemma clean_title_no_separator_not_unchanged :
  Forall (λ c, Char.title_sep c = false) (lit " A")
  ∧ clean_title (lit " A") ≠ lit " A".
Proof. split; [by repeat constructor | by vm_compute]. Qed.

(** C3 (amended): for a title with no [-] and no [|], [clean_title] returns
    the title with the surrounding whitespace trimmed; the title comes back
    unchanged when it neither starts nor ends with a whitespace character. *)
Theorem clean_title_no_separator title :
  Forall (λ c, Char.title_sep c = false) title →
  clean_title title = strip title
  ∧ ((∀ c, head title = Some c → Char.space c = false) →
     (∀ c, last title = Some c → Char.space c = false) →
     clean_title title = title).
Proof.
  intros Hsep. unfold clean_title. rewrite split_on_no_sep by done. simpl.
  split; [done|]. apply strip_id.
Qed.

Lemma clean_title_no_separator_witness :
  Forall (λ c, Char.title_sep c = false) (lit "Aye Ife")
  ∧ clean_title (lit "Aye Ife") = lit "Aye Ife".
Proof.
  assert (H : Forall (λ c, Char.title_sep c = false) (lit "Aye Ife"))
    by (by repeat constructor).
  split; [exact H|].
  apply (proj2 (clean_title_no_separator (lit "Aye Ife") H)).
  - intros c [= <-]. reflexivity.
  - intros c [= <-]. reflexivity.
Defined.

(** A string that holds a character of a class splits at the first one. *)
Lemma first_of_class (sep : N → bool) (s : str) :
  (∃ c, c ∈ s ∧ sep c = true) →
  ∃ pre c post,
    s = pre ++ c :: post ∧ Forall (λ x, sep x = false) pre ∧ sep c = true.
Proof.
  induction s as [|x s IH]; intros (c & Hin & Hc).
  - by apply elem_of_nil in Hin.
  - destruct (sep x) eqn:Hx.
    + by exists [], x, s.
    + apply elem_of_cons in Hin as [-> | Hin]; [congruence|].
      destruct IH as (pre & c' & post & -> & Hpre & Hc'); [by exists c|].
      exists (x :: pre), c', post. split_and!; [done | by constructor | done].
Qed.

Lemma clean_title_cut pre c post :
  Forall (λ x, Char.title_sep x = false) pre →
  Char.title_sep c = true →
  clean_title (pre ++ c :: post) = strip pre.
Proof.
  intros Hpre Hc. unfold clean_title. by rewrite (split_on_first _ pre c post).
Qed.

(** C4: a title that holds a [-] or a [|] splits at the first of them, and
    [clean_title] returns the text before it with the surrounding whitespace
    trimmed: what is cut off that text at either end is whitespace, and the
    result neither starts nor ends with a whitespace character. *)
Theorem clean_title_before_first_separator title :
  (∃ c, c ∈ title ∧ Char.title_sep c = true) →
  ∃ pre c post,
    title = pre ++ c :: post
    ∧ Forall (λ x, Char.title_sep x = false) pre
    ∧ Char.title_sep c = true
    ∧ clean_title title = strip pre
    ∧ (∃ l r, pre = l ++ clean_title title ++ r
              ∧ Forall (λ x, Char.space x = true) l
              ∧ Forall (λ x, Char.space x = true) r)
    ∧ (∀ x, head (clean_title title) = Some x → Char.space x = false)
    ∧ (∀ x, last (clean_title title) = Some x → Char.space x = false).
Proof.
  intros (pre & c & post & -> & Hpre & Hc)%first_of_class.
  exists pre, c, post. rewrite (clean_title_cut pre c post Hpre Hc).
  split_and!; try done.
  - apply strip_decompose.
  - apply strip_head.
  - apply strip_last.
Qed.

Lemma clean_title_before_first_separator_witness :
  (∃ c, c ∈ lit " Aye Ife - Latest | Yoruba" ∧ Char.title_sep c = true)
  ∧ ∃ pre c post,
      lit " Aye Ife - Latest | Yoruba" = pre ++ c :: post
      ∧ clean_title (lit " Aye Ife - Latest | Yoruba") = strip pre.
Proof.
  assert (H : ∃ c, c ∈ lit " Aye Ife - Latest | Yoruba"
                   ∧ Char.title_sep c = true).
  { exists 45%N. split; [|reflexivity]. apply (bool_decide_unpack _). exact I. }
  split; [exact H|].
  destruct (clean_title_before_first_separator _ H)
    as (pre & c & post & E & _ & _ & Hc & _).
  by exists pre, c, post.
Defined.

Example clean_title_scenario :
  clean_title Scenario.title = lit "Aye Ife"
  ∧ clean_title (lit "Ija Ominira | Part 2 - Drama") = lit "Ija Ominira"
  ∧ clean_title (lit "  Omo Ghetto  ") = lit "Omo Ghetto".
Proof. split_and!; reflexivity. Qed.

(** * Deduplication through [dict.fromkeys] *)

Section Fromkeys.
Context {K : Type} `{EqDecision K}.
Implicit Types (l : list K) (d : list (K * ())).

Lemma keys_setitem d k v :
  Dict.keys (Dict.setitem d k v)
  = if decide (k ∈ Dict.keys d) then Dict.keys d else Dict.keys d ++ [k].
Proof.
  unfold Dict.keys. induction d as [|[k' v'] d IH].
  - done.
  - cbn [Dict.setitem]. rewrite !fmap_cons. cbn [fst].
    destruct (decide (k' = k)) as [->|Hne].
    + rewrite decide_True by left. done.
    + rewrite fmap_cons, IH. cbn [fst].
      destruct (decide (k ∈ d.*1)) as [Hin|Hnin].
      * rewrite decide_True by (by right). done.
      * rewrite decide_False; [done|].
        intros [?|?]%elem_of_cons; congruence.
Qed.

Lemma keys_fromkeys_snoc l k :
  Dict.keys (Dict.fromkeys (l ++ [k]) ())
  = let out := Dict.keys (Dict.fromkeys l ()) in
    if decide (k ∈ out) then out else out ++ [k].
Proof. unfold Dict.fromkeys. rewrite foldl_snoc. apply keys_setitem. Qed.

Lemma first_index_lt x l i : first_index x l = Some i → i < length l.
Proof.
  unfold first_index. intros ([i' y] & Hf & ?)%fmap_Some. simpl in *. subst.
  apply list_find_Some in Hf as (Hl & _). by apply lookup_lt_Some in Hl.
Qed.

Lemma first_index_elem_of x l : x ∈ l → is_Some (first_index x l).
Proof.
  intros Hx. unfold first_index.
  destruct (list_find_elem_of (λ y, y = x) l x Hx eq_refl) as [p ->]. by eexists.
Qed.

Lemma first_index_app_l x l l' i :
  first_index x l = Some i → first_index x (l ++ l') = Some i.
Proof.
  unfold first_index. intros ([i' y] & Hf & ?)%fmap_Some. simpl in *. subst.
  by rewrite (list_find_app_l _ _ l' _ _ Hf).
Qed.

Lemma first_index_snoc_new x l :
  x ∉ l → first_index x (l ++ [x]) = Some (length l).
Proof.
  intros Hx. unfold first_index. rewrite list_find_app_r.
  - simpl. by rewrite decide_True.
  - apply list_find_None, Forall_forall. by intros y Hy ->.
Qed.

Lemma keys_fromkeys_spec l :
  let out := Dict.keys (Dict.fromkeys l ()) in
  NoDup out ∧ (∀ x, x ∈ out ↔ x ∈ l) ∧ first_occurrence_order l out.
Proof.
  induction l as [|k l (Hnd & Hin & Hord)] using rev_ind; simpl.
  - split_and!; [constructor | done |]. intros i j x y Hi. done.
  - rewrite keys_fromkeys_snoc. simpl.
    set (out := Dict.keys (Dict.fromkeys l ())) in *.
    destruct (decide (k ∈ out)) as [Hk|Hk].
    + split_and!; [done | |].
      * intros x. rewrite elem_of_app, Hin, list_elem_of_singleton.
        split; [auto|]. intros [? | ->]; [done | by apply Hin].
      * intros i j x y Hi Hj Hij.
        destruct (Hord i j x y Hi Hj Hij) as (i' & j' & Hx & Hy & ?).
        exists i', j'. eauto using first_index_app_l.
    + split_and!.
      * apply NoDup_app. split_and!; [done | | apply NoDup_singleton].
        intros x Hx ->%list_elem_of_singleton. done.
      * intros x. rewrite !elem_of_app, Hin. done.
      * intros i j x y Hi Hj Hij.
        apply lookup_app_Some in Hi as [Hi|[Hlen Hi]]; last first.
        { apply lookup_lt_Some in Hj. rewrite length_app in Hj. simpl in Hj.
          destruct (i - length out) eqn:?; simpl in Hi; [lia|done]. }
        apply lookup_app_Some in Hj as [Hj|[Hlen Hj]].
        { destruct (Hord i j x y Hi Hj Hij) as (i' & j' & Hx & Hy & ?).
          exists i', j'. eauto using first_index_app_l. }
        destruct (j - length out) eqn:?; simpl in Hj; [|done].
        injection Hj as <-.
        assert (x ∈ l) as Hxl by (apply Hin; eauto using list_elem_of_lookup_2).
        destruct (first_index_elem_of x l Hxl) as [i' Hi'].
        exists i', (length l). split_and!.
        -- by apply first_index_app_l.
        -- apply first_index_snoc_new. by rewrite <- Hin.
        -- by apply first_index_lt in Hi'.
Qed.
End Fromkeys.

(** C7: the output of [extract_stars] is [list(dict.fromkeys(stars))] for the
    candidate list [stars]; for every candidate list that output has no
    duplicates, has the elements of the candidate list, and lists them in the
    order of their first occurrences in it. *)
Theorem extract_stars_unique_in_order unicode_alnum title description
    (stars : list str) :
  extract_stars unicode_alnum title description
  = Dict.keys (Dict.fromkeys (candidates unicode_alnum title description) ())
  ∧ let out := Dict.keys (Dict.fromkeys stars ()) in
    NoDup out ∧ (∀ x, x ∈ out ↔ x ∈ stars) ∧ first_occurrence_order stars out.
Proof. split; [done | apply keys_fromkeys_spec]. Qed.

(** * The classifier *)

Lemma int_inject_Z z : int (inject_Z z) = z.
Proof.
  unfold int. destruct (Qle_bool 0 (inject_Z z));
    [apply Qfloor_Z | apply Qceiling_Z].
Qed.

Lemma minutes_of_floor d : minutes_of d = Qfloor (Detail.duration d / 60).
Proof. unfold minutes_of, floordiv. apply int_inject_Z. Qed.

Lemma classify_short unicode_alnum details movies v d :
  details !! Video.videoId v = Some d → (minutes_of d < 15)%Z →
  classify unicode_alnum details movies v = movies.
Proof.
  intros Hd Hm. unfold classify. rewrite Hd.
  by rewrite (proj2 (Z.ltb_lt _ _) Hm).
Qed.

(** What one batch adds to [movies]: the records of a subsequence of the
    batch, in the order of the batch. *)
Lemma classify_foldl unicode_alnum details batch movies :
  ∃ kept new,
    foldl (classify unicode_alnum details) movies batch = movies ++ new
    ∧ kept `sublist_of` batch
    ∧ Forall2 (λ v m, ∃ d, details !! Video.videoId v = Some d
                           ∧ (15 ≤ minutes_of d)%Z
                           ∧ m = movie_of unicode_alnum v d (minutes_of d))
              kept new.
Proof.
  revert movies. induction batch as [|v batch IH]; intros movies; simpl.
  - exists [], []. by rewrite app_nil_r.
  - unfold classify at 2.
    destruct (details !! Video.videoId v) as [d|] eqn:Hd.
    + destruct (minutes_of d <? 15)%Z eqn:Hm.
      * destruct (IH movies) as (kept & new & E & Hs & HF).
        exists kept, new. split_and!; [done | by constructor | done].
      * destruct (IH (movies ++ [movie_of unicode_alnum v d (minutes_of d)]))
          as (kept & new & E & Hs & HF).
        exists (v :: kept), (movie_of unicode_alnum v d (minutes_of d) :: new).
        split_and!.
        -- by rewrite E, <- app_assoc.
        -- by constructor.
        -- constructor; [|done]. exists d. apply Z.ltb_ge in Hm. done.
    + destruct (IH movies) as (kept & new & E & Hs & HF).
      exists kept, new. split_and!; [done | by constructor | done].
Qed.

Section Batches.

Variable unicode_alnum : N → bool.
Variable api : Api.t.

Lemma fetch_batch_run videos all_ids movies i w :
  fetch_batch unicode_alnum api videos all_ids movies i w
  = (Returned
       (foldl (classify unicode_alnum
                 (details_of (Api.videos api (requests w)
                                        (take 50 (drop i all_ids)))))
              movies (take 50 (drop i videos))),
     {| requests := requests w ++ [Api.Videos (take 50 (drop i all_ids))];
        stdout := stdout w |}).
Proof. reflexivity. Qed.

(** The batch loop from batch number [a] on. *)
Lemma fetch_batches videos all_ids n a movies w :
  ∃ new kept w',
    for_each ((λ k, 0 + k * 50) <$> seq a n)
             (fetch_batch unicode_alnum api videos all_ids) movies w
    = (Returned (movies ++ new), w')
    ∧ kept `sublist_of` drop (a * 50) videos
    ∧ Forall2 (emitted_from unicode_alnum api) kept new
    ∧ stdout w' = stdout w.
Proof.
  revert a movies w. induction n as [|n IH]; intros a movies w.
  - exists [], [], w. rewrite app_nil_r. split_and!; try done.
    apply sublist_nil_l.
  - cbn [seq fmap list_fmap for_each]. unfold mbind at 1, Run_bind at 1.
    rewrite fetch_batch_run.
    destruct (classify_foldl unicode_alnum
                (details_of (Api.videos api (requests w)
                                       (take 50 (drop (0 + a * 50) all_ids))))
                (take 50 (drop (0 + a * 50) videos)) movies)
      as (kept1 & new1 & E1 & Hs1 & HF1).
    rewrite E1.
    destruct (IH (S a) (movies ++ new1)
                {| requests := requests w
                     ++ [Api.Videos (take 50 (drop (0 + a * 50) all_ids))];
                   stdout := stdout w |})
      as (new2 & kept2 & w' & E2 & Hs2 & HF2 & Hout).
    exists (new1 ++ new2), (kept1 ++ kept2), w'. split_and!.
    + rewrite app_assoc. exact E2.
    + rewrite <- (take_drop 50 (drop (a * 50) videos)).
      apply sublist_app; [done|].
      rewrite drop_drop. by replace (a * 50 + 50) with (S a * 50) by lia.
    + apply Forall2_app; [|done].
      eapply Forall2_impl; [exact HF1|]. intros v m (d & ? & ? & ?).
      by exists (requests w), (take 50 (drop (0 + a * 50) all_ids)), d.
    + done.
Qed.

(** [fetch_movies] returns, and its list is made of the records of a
    subsequence of the listed videos, in the order of the listing. *)
Lemma fetch_movies_returns videos w :
  ∃ movies kept w',
    fetch_movies unicode_alnum api videos w = (Returned movies, w')
    ∧ kept `sublist_of` videos
    ∧ Forall2 (emitted_from unicode_alnum api) kept movies
    ∧ stdout w' = stdout w.
Proof.
  unfold fetch_movies, range.
  destruct (fetch_batches videos (Video.videoId <$> videos)
              ((length (Video.videoId <$> videos) - 0 + 50 - 1) `div` 50)
              0 [] w)
    as (new & kept & w' & E & Hs & HF & Hout).
  exists new, kept, w'. done.
Qed.

Lemma fetch_movies_Forall (P : Movie.t → Prop) videos w :
  (∀ v m, emitted_from unicode_alnum api v m → P m) →
  ∃ movies w',
    fetch_movies unicode_alnum api videos w = (Returned movies, w')
    ∧ Forall P movies.
Proof.
  intros HP.
  destruct (fetch_movies_returns videos w) as (movies & kept & w' & E & _ & HF & _).
  exists movies, w'. split; [done|].
  clear E. induction HF; constructor; eauto.
Qed.

End Batches.

(** * Claims on the classifier *)

(** C5: the minutes are the floor of the seconds divided by 60; a video whose
    minutes are below 15 adds nothing to [movies]; and every record of the
    list that [fetch_movies] returns has a duration of at least 15. *)
Theorem short_videos_excluded unicode_alnum api :
  (∀ d, (inject_Z (minutes_of d) <= Detail.duration d / 60)%Q
        ∧ (Detail.duration d / 60 < inject_Z (minutes_of d + 1))%Q)
  ∧ (∀ details movies v d,
       details !! Video.videoId v = Some d → (minutes_of d < 15)%Z →
       classify unicode_alnum details movies v = movies)
  ∧ (∀ videos w, ∃ movies w',
       fetch_movies unicode_alnum api videos w = (Returned movies, w')
       ∧ Forall (λ m, (15 ≤ Movie.duration m)%Z) movies).
Proof.
  split_and!.
  - intros d. rewrite minutes_of_floor. split.
    + apply Qfloor_le.
    + apply Qlt_floor.
  - apply classify_short.
  - intros videos w. apply fetch_movies_Forall.
    intros v m (sent & ids & d & _ & Hm & ->). exact Hm.
Qed.

Lemma short_videos_excluded_witness :
  classify latin1_alnum {[ lit "v1" := Scenario.trailer ]} [] Scenario.video = [].
Proof.
  apply (proj1 (proj2 (short_videos_excluded latin1_alnum Scenario.api))
           _ _ _ Scenario.trailer).
  - apply lookup_singleton_eq.
  - reflexivity.
Defined.

Lemma extract_stars_elem_of unicode_alnum title description m :
  m ∈ extract_stars unicode_alnum title description
  ↔ (m ∉ ignore)
    ∧ m ∈ findall_names unicode_alnum (title ++ lit " " ++ description).
Proof.
  unfold extract_stars.
  destruct (keys_fromkeys_spec (candidates unicode_alnum title description))
    as (_ & Hin & _).
  rewrite Hin. unfold candidates. by rewrite list_elem_of_filter.
Qed.

Lemma extract_stars_all_ignored unicode_alnum title description :
  (∀ m, m ∈ findall_names unicode_alnum (title ++ lit " " ++ description) →
        m ∈ ignore) →
  extract_stars unicode_alnum title description = [].
Proof.
  intros H.
  destruct (extract_stars unicode_alnum title description) as [|m ms] eqn:E;
    [done|].
  assert (m ∈ extract_stars unicode_alnum title description) as Hm
    by (rewrite E; left).
  apply extract_stars_elem_of in Hm as [Hn Hin]. by destruct Hn; apply H.
Qed.

Lemma movie_of_stars_nonempty unicode_alnum v d minutes :
  Movie.stars (movie_of unicode_alnum v d minutes) ≠ [].
Proof.
  simpl. by destruct (extract_stars _ _ _).
Qed.

(** C6: every record of the list that [fetch_movies] returns has a non-empty
    stars list; and when every capitalised run found in the title and the
    description is a stoplist term (or there is none), the stars list of the
    record is ["Unknown"]. *)
Theorem stars_never_empty unicode_alnum api :
  (∀ videos w, ∃ movies w',
     fetch_movies unicode_alnum api videos w = (Returned movies, w')
     ∧ Forall (λ m, Movie.stars m ≠ []) movies)
  ∧ (∀ v d minutes,
       (∀ m, m ∈ findall_names unicode_alnum
                   (Video.title v ++ lit " " ++ Detail.description d) →
             m ∈ ignore) →
       Movie.stars (movie_of unicode_alnum v d minutes) = [lit "Unknown"]).
Proof.
  split.
  - intros videos w. apply fetch_movies_Forall.
    intros v m (sent & ids & d & _ & _ & ->). apply movie_of_stars_nonempty.
  - intros v d minutes H. simpl.
    by rewrite (extract_stars_all_ignored _ _ _ H).
Qed.

Lemma stars_never_empty_witness :
  Movie.stars (movie_of latin1_alnum Scenario.stoplist_video
                 Scenario.stoplist_detail 90)
  = [lit "Unknown"].
Proof.
  apply (proj2 (stars_never_empty latin1_alnum Scenario.api)).
  apply Forall_forall. apply (bool_decide_unpack _). vm_compute. exact I.
Defined.

Lemma stoplist_terms_have_no_space m c :
  m ∈ ignore → c ∈ m → Char.space c = false.
Proof.
  intros Hm Hc.
  assert (Forall (λ x, Char.space x = false) m) as HF.
  { unfold ignore in Hm. rewrite !elem_of_union, !elem_of_singleton in Hm.
    destruct Hm as [[[[[->| ->]| ->]| ->]| ->]| ->]; by repeat constructor. }
  by eapply Forall_forall in HF.
Qed.

(** C10: a capitalised run found in the title and the description is
    missing from the output exactly when it is equal to one of the six
    stoplist terms; a run of several words, which holds a whitespace
    character, is always kept. *)
Theorem only_whole_stoplist_runs_removed unicode_alnum title description m :
  m ∈ findall_names unicode_alnum (title ++ lit " " ++ description) →
  (m ∉ extract_stars unicode_alnum title description
   ↔ m = lit "Latest" ∨ m = lit "Yoruba" ∨ m = lit "Movie"
     ∨ m = lit "Drama" ∨ m = lit "Part" ∨ m = lit "Episode")
  ∧ ((∃ c, c ∈ m ∧ Char.space c = true) →
     m ∈ extract_stars unicode_alnum title description).
Proof.
  intros Hm.
  assert (m ∈ ignore
          ↔ m = lit "Latest" ∨ m = lit "Yoruba" ∨ m = lit "Movie"
            ∨ m = lit "Drama" ∨ m = lit "Part" ∨ m = lit "Episode") as Hig.
  { unfold ignore. rewrite !elem_of_union, !elem_of_singleton. tauto. }
  split.
  - rewrite <- Hig, extract_stars_elem_of. split.
    + intros Hn. destruct (decide (m ∈ ignore)); [done|]. by destruct Hn.
    + by intros Hi [Hn _].
  - intros (c & Hc & Hsp). apply extract_stars_elem_of. split; [|done].
    intros Hi. by rewrite (stoplist_terms_have_no_space m c Hi Hc) in Hsp.
Qed.

Lemma only_whole_stoplist_runs_removed_witness :
  lit "Latest Yoruba Movie"
  ∈ extract_stars latin1_alnum Scenario.title Scenario.description.
Proof.
  apply (proj2 (only_whole_stoplist_runs_removed latin1_alnum
                  Scenario.title Scenario.description
                  (lit "Latest Yoruba Movie")
                  ltac:(apply (bool_decide_unpack _); vm_compute; exact I))).
  exists 32%N. split; [|reflexivity].
  apply (bool_decide_unpack _). vm_compute. exact I.
Defined.

(** C2, as stated, fails: with five empty lines before the text, the text is
    the first non-empty line, yet the record gets the default description. *)
Lemma description_not_first_nonblank_lines :
  Movie.description (movie_of latin1_alnum Scenario.video Scenario.late_text 90)
  = lit "No description"
  ∧ description_as_specified (Detail.description Scenario.late_text)
    = lit "Hello"
  ∧ Movie.description (movie_of latin1_alnum Scenario.video Scenario.late_text 90)
    ≠ description_as_specified (Detail.description Scenario.late_text).
Proof. split_and!; by vm_compute. Qed.

(** C2 (amended): the description of a record is made from the first five
    lines of the raw description: those that are not blank are trimmed and
    joined with single spaces, and that string is the description when it
    is not empty, the literal "No description" otherwise.  It is never
    empty, and for a raw description of at most five lines it is the string
    made from the first five non-blank lines. *)
Theorem description_from_first_five_lines unicode_alnum v d minutes :
  let lines := take 5 (split_on Char.newline (Detail.description d)) in
  let joined := join (lit " ") (strip <$> filter (λ x, strip x ≠ []) lines) in
  Movie.description (movie_of unicode_alnum v d minutes)
  = (if decide (joined = []) then lit "No description" else joined)
  ∧ Movie.description (movie_of unicode_alnum v d minutes) ≠ []
  ∧ (length (split_on Char.newline (Detail.description d)) ≤ 5 →
     Movie.description (movie_of unicode_alnum v d minutes)
     = description_as_specified (Detail.description d)).
Proof.
  intros lines joined. split_and!.
  - simpl. fold lines. unfold join_lines. fold lines joined.
    by destruct joined.
  - simpl. by destruct (join_lines (Detail.description d)).
  - intros Hlen. simpl. unfold description_as_specified, join_lines.
    rewrite (take_ge _ 5 Hlen). rewrite take_ge; [done|].
    etrans; [apply length_filter | done].
Qed.

Lemma description_from_first_five_lines_witness :
  length (split_on Char.newline Scenario.description) ≤ 5
  ∧ Movie.description (movie_of latin1_alnum Scenario.video
                         (Detail.mk (inject_Z 5400) (lit "1") Scenario.description) 90)
    = description_as_specified Scenario.description.
Proof.
  assert (H : length (split_on Char.newline Scenario.description) ≤ 5)
    by (vm_compute; lia).
  split; [exact H|].
  exact (proj2 (proj2 (description_from_first_five_lines latin1_alnum
           Scenario.video
           (Detail.mk (inject_Z 5400) (lit "1") Scenario.description) 90)) H).
Defined.

(** * The scenario of the specification *)

(** C1, as stated, fails: the run of capitalised words that holds the first
    actor is "Starring Bola Aina", so "Bola Aina" is not an element of the
    stars list. *)
Lemma scenario_stars_not_as_specified :
  fetch_movies latin1_alnum Scenario.api [Scenario.video] Scenario.start
  = (Returned [Scenario.movie],
     {| requests := [Api.Videos [lit "v1"]]; stdout := [] |})
  ∧ ¬ scenario_record_as_specified Scenario.movie.
Proof.
  split; [by vm_compute|].
  intros (_ & _ & Hsub & _).
  apply sublist_cons_l in Hsub as (k1 & k2 & E & _).
  assert (lit "Bola Aina" ∈ Movie.stars Scenario.movie) as Hin.
  { rewrite E. apply elem_of_app. right. left. }
  revert Hin. change (lit "Bola Aina" ∉ Movie.stars Scenario.movie).
  by_evaluation.
Qed.

(** C1 (amended): for the video of the scenario the pipeline produces one
    record, with title "Aye Ife", duration 90, the stars list "Aye Ife",
    "Latest Yoruba Movie", "Starring Bola Aina", "Kemi Afolabi" (so
    "Starring Bola Aina" and "Kemi Afolabi" in that order and no element
    equal to "Latest", "Yoruba" or "Movie") and the description
    "A romantic drama. Starring Bola Aina and Kemi Afolabi." *)
Theorem scenario_record unicode_alnum w :
  fetch_movies unicode_alnum Scenario.api [Scenario.video] w
  = (Returned [Scenario.movie],
     {| requests := requests w ++ [Api.Videos [lit "v1"]];
        stdout := stdout w |})
  ∧ Movie.title Scenario.movie = lit "Aye Ife"
  ∧ Movie.duration Scenario.movie = 90%Z
  ∧ Movie.stars Scenario.movie
    = [lit "Aye Ife"; lit "Latest Yoruba Movie";
       lit "Starring Bola Aina"; lit "Kemi Afolabi"]
  ∧ [lit "Starring Bola Aina"; lit "Kemi Afolabi"]
      `sublist_of` Movie.stars Scenario.movie
  ∧ (lit "Latest" ∉ Movie.stars Scenario.movie)
  ∧ (lit "Yoruba" ∉ Movie.stars Scenario.movie)
  ∧ (lit "Movie" ∉ Movie.stars Scenario.movie)
  ∧ Movie.description Scenario.movie
    = lit "A romantic drama. Starring Bola Aina and Kemi Afolabi.".
Proof.
  split_and!.
  - by vm_compute.
  - reflexivity.
  - reflexivity.
  - reflexivity.
  - do 2 apply sublist_cons. do 2 apply sublist_skip. apply sublist_nil.
  - by_evaluation.
  - by_evaluation.
  - by_evaluation.
  - reflexivity.
Qed.

(** * The run *)

(** C8: when the channel lookup answers without matching items,
    [get_channel_id] raises the resolution error, and [main] ends with that
    error having sent the channel lookup and nothing else: no listing
    request and no detail request. *)
Theorem unresolved_handle_ends_run unicode_alnum api :
  (∀ handle w,
     no_matching_items (Api.channels api (requests w) handle) →
     get_channel_id api handle w
     = (Raised (ValueError (lit "Could not resolve channel handle " ++ handle)),
        {| requests := requests w ++ [Api.Channels handle];
           stdout := stdout w |}))
  ∧ (∀ fuel w,
       no_matching_items (Api.channels api (requests w) CHANNEL_HANDLE) →
       main unicode_alnum api fuel w
       = (Raised (ValueError
                    (lit "Could not resolve channel handle " ++ CHANNEL_HANDLE)),
          {| requests := requests w ++ [Api.Channels CHANNEL_HANDLE];
             stdout := stdout w ++ [lit "Starting movie fetch..."] |})).
Proof.
  assert (∀ handle w,
     no_matching_items (Api.channels api (requests w) handle) →
     get_channel_id api handle w
     = (Raised (ValueError (lit "Could not resolve channel handle " ++ handle)),
        {| requests := requests w ++ [Api.Channels handle];
           stdout := stdout w |})) as Hid.
  { intros handle w Hno. unfold get_channel_id, mbind, Run_bind, http_get.
    by destruct Hno as [-> | ->]. }
  split; [exact Hid|].
  intros fuel w Hno. unfold main.
  unfold mbind at 1, Run_bind at 1. unfold print at 1.
  unfold mbind at 1, Run_bind at 1.
  by rewrite (Hid CHANNEL_HANDLE
                {| requests := requests w;
                   stdout := stdout w ++ [lit "Starting movie fetch..."] |} Hno).
Qed.

Lemma unresolved_handle_ends_run_witness :
  main latin1_alnum Scenario.unknown_handle_api 10 Scenario.start
  = (Raised (ValueError
               (lit "Could not resolve channel handle " ++ CHANNEL_HANDLE)),
     {| requests := [Api.Channels CHANNEL_HANDLE];
        stdout := [lit "Starting movie fetch..."] |}).
Proof.
  apply (proj2 (unresolved_handle_ends_run latin1_alnum
                  Scenario.unknown_handle_api) 10 Scenario.start).
  right. reflexivity.
Defined.

Lemma print_movie_run m w :
  print_movie m w
  = (Returned (),
     {| requests := requests w; stdout := stdout w ++ printed_lines m |}).
Proof.
  unfold printed_lines, print_movie, mbind, Run_bind, print. simpl.
  by rewrite <- !app_assoc.
Qed.

Lemma report_run movies w :
  report movies w
  = (Returned (),
     {| requests := requests w;
        stdout := stdout w ++ match movies with
                              | [] => [NO_MOVIES]
                              | _ => movies ≫= printed_lines
                              end |}).
Proof.
  destruct movies as [|m0 movies]; [done|].
  unfold report. generalize (m0 :: movies). clear. intros movies.
  assert (∀ u, for_each movies (λ (_ : ()) m, print_movie m) u w
               = (Returned (),
                  {| requests := requests w;
                     stdout := stdout w ++ (movies ≫= printed_lines) |})) as H.
  { revert w. induction movies as [|m movies IH]; intros w u.
    - destruct w, u. simpl. by rewrite app_nil_r.
    - cbn [for_each]. unfold mbind at 1, Run_bind at 1.
      rewrite print_movie_run, IH. simpl. by rewrite <- app_assoc. }
  rewrite H. by destruct movies.
Qed.

(** C9: [fetch_movies] returns the records of a subsequence of the listed
    videos, each built from its own video, in the order of the listing; the
    console then gets the lines of these records in that order, and the
    single notice, without any record, when the list is empty. *)
Theorem movies_in_listing_order unicode_alnum api videos w :
  (∃ movies kept w',
     fetch_movies unicode_alnum api videos w = (Returned movies, w')
     ∧ kept `sublist_of` videos
     ∧ Forall2 (emitted_from unicode_alnum api) kept movies)
  ∧ (∀ movies,
       stdout (report movies w).2
       = stdout w ++ (if decide (movies = []) then [NO_MOVIES]
                      else movies ≫= printed_lines)).
Proof.
  split.
  - destruct (fetch_movies_returns unicode_alnum api videos w)
      as (movies & kept & w' & E & Hs & HF & _).
    by exists movies, kept, w'.
  - intros movies. rewrite report_run. simpl. by destruct movies.
Qed.

(** * Pagination and the whole run *)

(** More fuel does not change what the listing returns. *)
Lemma get_channel_videos_loop_more_fuel api fuel fuel' channel_id page_token
    videos w result w' :
  get_channel_videos_loop api fuel channel_id page_token videos w
  = (Returned result, w') →
  fuel ≤ fuel' →
  get_channel_videos_loop api fuel' channel_id page_token videos w
  = (Returned result, w').
Proof.
  revert fuel' page_token videos w.
  induction fuel as [|fuel IH]; intros fuel' page_token videos w; [done|].
  intros Hrun Hle. destruct fuel' as [|fuel']; [lia|].
  revert Hrun. cbn [get_channel_videos_loop].
  unfold mbind, Run_bind, http_get.
  destruct (truthy (Api.nextPageToken _)); [|done].
  intros Hrun. apply IH; [done | lia].
Qed.

(** A listing that fits in one page is returned after one request. *)
Lemma get_channel_videos_one_page api fuel channel_id w :
  truthy (Api.nextPageToken (Api.search api (requests w) channel_id None))
  = false →
  get_channel_videos api (S fuel) channel_id w
  = (Returned (video_of_item
                 <$> default [] (Api.search_items
                                (Api.search api (requests w) channel_id None))),
     {| requests := requests w ++ [Api.Search channel_id None];
        stdout := stdout w |}).
Proof.
  intros Hlast. unfold get_channel_videos. cbn [get_channel_videos_loop truthy].
  unfold mbind, Run_bind, http_get. by rewrite Hlast.
Qed.

(** The run of the scenario, from the first line printed to the last. *)
Example scenario_run unicode_alnum :
  main unicode_alnum Scenario.api 1 Scenario.start
  = (Returned (),
     {| requests := [Api.Channels CHANNEL_HANDLE;
                     Api.Search (lit "UC1") None;
                     Api.Videos [lit "v1"]];
        stdout := [lit "Starting movie fetch...";
                   10%N :: 9989%N :: lit " New Movie Added!";
                   lit "Title: Aye Ife";
                   lit "Category: 1";
                   lit "Stars: Aye Ife, Latest Yoruba Movie, Starring Bola Aina, Kemi Afolabi";
                   lit "Duration: 90 minutes";
                   lit "Description: A romantic drama. Starring Bola Aina and Kemi Afolabi."] |}).
Proof. by vm_compute. Qed.

(** * Further properties of [clean_title] *)

Lemma clean_title_no_separator_strip title :
  Forall (λ c, Char.title_sep c = false) title → clean_title title = strip title.
Proof.
  intros Hsep. unfold clean_title. by rewrite split_on_no_sep.
Qed.

Lemma split_on_head sep s piece :
  head (split_on sep s) = Some piece →
  Forall (λ c, sep c = false) piece ∧ ∃ rest, s = piece ++ rest.
Proof.
  revert piece. induction s as [|c s IH]; intros piece; simpl.
  - intros [= <-]. split; [constructor | by exists []].
  - destruct (sep c) eqn:Hc.
    + intros [= <-]. split; [constructor | by eexists].
    + destruct (split_on sep s) as [|p ps] eqn:E.
      * intros [= <-]. by destruct (split_on_nonempty sep s).
      * intros [= <-]. destruct (IH p eq_refl) as [HF [rest ->]].
        split; [by constructor | by exists rest].
Qed.

Lemma clean_title_first_piece title :
  ∃ piece rest,
    title = piece ++ rest
    ∧ Forall (λ c, Char.title_sep c = false) piece
    ∧ clean_title title = strip piece.
Proof.
  unfold clean_title.
  destruct (head (split_on Char.title_sep title)) as [piece|] eqn:E.
  - destruct (split_on_head _ _ _ E) as [HF [rest ->]]. by exists piece, rest.
  - destruct (split_on Char.title_sep title) eqn:E'; [|done].
    by destruct (split_on_nonempty Char.title_sep title).
Qed.

(** X9: whatever the title, the cleaned title is a contiguous piece of it,
    holds no [-] and no [|], and neither starts nor ends with whitespace. *)
Theorem clean_title_piece_of_title title :
  (∃ before after, title = before ++ clean_title title ++ after)
  ∧ Forall (λ c, Char.title_sep c = false) (clean_title title)
  ∧ (∀ c, head (clean_title title) = Some c → Char.space c = false)
  ∧ (∀ c, last (clean_title title) = Some c → Char.space c = false).
Proof.
  destruct (clean_title_first_piece title) as (piece & rest & -> & HF & E).
  rewrite E. destruct (strip_decompose piece) as (l & r & Hp & _ & _).
  split_and!.
  - exists l, (r ++ rest). rewrite Hp at 1. by rewrite <- !app_assoc.
  - rewrite Hp in HF. by apply Forall_app in HF as [_ [? _]%Forall_app].
  - apply strip_head.
  - apply strip_last.
Qed.

(** X10: cleaning a cleaned title changes nothing. *)
Theorem clean_title_idempotent title :
  clean_title (clean_title title) = clean_title title.
Proof.
  destruct (clean_title_piece_of_title title) as (_ & HF & Hh & Hl).
  rewrite (clean_title_no_separator_strip (clean_title title) HF).
  by apply strip_id.
Qed.

(** * The 15 minute threshold in seconds *)

Lemma minutes_threshold d :
  (15 ≤ minutes_of d)%Z ↔ (900 <= Detail.duration d)%Q.
Proof.
  rewrite minutes_of_floor. set (x := Detail.duration d).
  assert (Hx : (x / 60 * 60 == x)%Q) by (field; discriminate).
  split.
  - intros H. rewrite <- Hx. change (900%Q) with (15 * 60)%Q.
    apply Qmult_le_r; [reflexivity|].
    eapply Qle_trans; [|apply Qfloor_le].
    rewrite Zle_Qle in H. exact H.
  - intros H. rewrite <- (Qfloor_Z 15). apply Qfloor_resp_le.
    apply Qle_shift_div_l; [reflexivity|]. exact H.
Qed.

(** X8: a video with a detail entry is kept exactly when its duration is at
    least 900 seconds; one of 899.99 seconds is dropped. *)
Theorem kept_from_900_seconds unicode_alnum details movies v d :
  details !! Video.videoId v = Some d →
  classify unicode_alnum details movies v
  = if Qle_bool 900 (Detail.duration d)
    then movies ++ [movie_of unicode_alnum v d (minutes_of d)]
    else movies.
Proof.
  intros Hd. unfold classify. rewrite Hd. cbn zeta.
  destruct (Qle_bool 900 (Detail.duration d)) eqn:Hq.
  - apply Qle_bool_iff, minutes_threshold in Hq.
    by rewrite (proj2 (Z.ltb_ge _ _) Hq).
  - destruct (minutes_of d <? 15)%Z eqn:Hm; [done|].
    apply Z.ltb_ge, minutes_threshold, Qle_bool_iff in Hm. congruence.
Qed.

Lemma kept_from_900_seconds_witness :
  classify latin1_alnum
    {[ lit "v1" := Detail.mk (89999 # 100) (lit "1") Scenario.description ]}
    [] Scenario.video
  = [].
Proof.
  refine (eq_trans (kept_from_900_seconds latin1_alnum _ [] Scenario.video
                      (Detail.mk (89999 # 100) (lit "1") Scenario.description) _) _).
  - apply lookup_singleton_eq.
  - reflexivity.
Defined.

(** * The shape of a record's description *)

Lemma split_on_pieces sep s :
  Forall (Forall (λ c, sep c = false)) (split_on sep s).
Proof.
  induction s as [|c s IH]; simpl.
  - by repeat constructor.
  - destruct (sep c) eqn:Hc; [by constructor|].
    destruct (split_on sep s) as [|p ps]; [by repeat constructor|].
    apply Forall_cons in IH as [Hp Hps]. constructor; [by constructor | done].
Qed.

Lemma strip_Forall (P : N → Prop) s : Forall P s → Forall P (strip s).
Proof.
  intros H. destruct (strip_decompose s) as (l & r & E & _ & _).
  rewrite E in H. by apply Forall_app in H as [_ [? _]%Forall_app].
Qed.

Lemma join_Forall (P : N → Prop) sep parts :
  Forall P sep → Forall (Forall P) parts → Forall P (join sep parts).
Proof.
  intros Hsep. induction 1 as [|p ps Hp Hps IH]; simpl; [done|].
  destruct ps as [|p' ps]; [done|].
  apply Forall_app; split; [done|]. apply Forall_app; split; [done|]. exact IH.
Qed.

Lemma join_ends sep parts :
  Forall (λ p, p ≠ []) parts →
  head (join sep parts) = head parts ≫= head
  ∧ last (join sep parts) = last parts ≫= last.
Proof.
  induction 1 as [|p ps Hp Hps [IHh IHl]]; [done|].
  destruct ps as [|p' ps]; [done|].
  change (join sep (p :: p' :: ps)) with (p ++ sep ++ join sep (p' :: ps)).
  split.
  - rewrite head_app. by destruct p.
  - rewrite !last_app, IHl. rewrite last_cons_cons.
    assert (is_Some (last (p' :: ps) ≫= last)) as [y ->]; [|done].
    destruct (last (p' :: ps)) as [q|] eqn:Hq.
    + apply last_Some_elem_of in Hq.
      eapply Forall_forall in Hps; [|exact Hq]. simpl.
      destruct q as [|x q _] using rev_ind; [done|].
      rewrite last_snoc. by eexists.
    + by apply last_None in Hq.
Qed.

(** The pieces that [join_lines] joins: non-empty, trimmed, free of line
    feeds. *)
Lemma join_lines_pieces description :
  let pieces := strip <$> filter (λ x, strip x ≠ [])
                            (take 5 (split_on Char.newline description)) in
  Forall (λ p, p ≠ []) pieces
  ∧ Forall (Forall (λ c, Char.newline c = false)) pieces
  ∧ Forall (λ p, ∀ c, head p = Some c → Char.space c = false) pieces
  ∧ Forall (λ p, ∀ c, last p = Some c → Char.space c = false) pieces.
Proof.
  intros pieces. unfold pieces. rewrite !Forall_fmap. split_and!.
  - apply Forall_forall. by intros x [? _]%list_elem_of_filter.
  - apply Forall_forall. intros x [_ Hx%elem_of_take]%list_elem_of_filter.
    destruct Hx as (i & Hx%list_elem_of_lookup_2 & _). simpl.
    apply strip_Forall.
    by eapply Forall_forall in Hx; [|apply split_on_pieces].
  - apply Forall_forall. intros x _ c. apply strip_head.
  - apply Forall_forall. intros x _ c. apply strip_last.
Qed.

(** X12: the description of a record is never empty, holds no line feed,
    and neither starts nor ends with whitespace. *)
Theorem description_shape unicode_alnum v d minutes :
  let desc := Movie.description (movie_of unicode_alnum v d minutes) in
  desc ≠ []
  ∧ Forall (λ c, Char.newline c = false) desc
  ∧ (∀ c, head desc = Some c → Char.space c = false)
  ∧ (∀ c, last desc = Some c → Char.space c = false).
Proof.
  simpl. destruct (join_lines (Detail.description d)) as [|c0 joined] eqn:E.
  - split_and!; [done | by repeat constructor | |];
      intros c [= <-]; reflexivity.
  - rewrite <- E. unfold join_lines in *.
    destruct (join_lines_pieces (Detail.description d)) as (Hne & Hnl & Hh & Hl).
    cbn zeta in *.
    set (pieces := strip <$> filter (λ x, strip x ≠ [])
                     (take 5 (split_on Char.newline (Detail.description d)))) in *.
    destruct (join_ends (lit " ") pieces Hne) as [Eh El].
    split_and!.
    + by rewrite E.
    + apply join_Forall; [by repeat constructor | done].
    + intros c. rewrite Eh. destruct (head pieces) as [p|] eqn:Hp; [|done].
      simpl. apply head_Some_elem_of in Hp.
      by eapply Forall_forall in Hh; [apply Hh|].
    + intros c. rewrite El. destruct (last pieces) as [p|] eqn:Hp; [|done].
      simpl. apply last_Some_elem_of in Hp.
      by eapply Forall_forall in Hl; [apply Hl|].
Qed.

(** * The shape of the extracted names *)

Lemma span_spec p s :
  s = (span p s).1 ++ (span p s).2 ∧ Forall (λ c, p c = true) (span p s).1.
Proof.
  induction s as [|c s [IH1 IH2]]; simpl; [done|].
  destruct (p c) eqn:Hc; [|done].
  destruct (span p s) as [run rest]. simpl in *.
  split; [by rewrite <- IH1 | by constructor].
Qed.

Lemma cap_word_spec s word :
  cap_word s = Some word →
  ∃ c c' run rest,
    word = c :: c' :: run ∧ s = word ++ rest
    ∧ Char.upper c = true ∧ Char.lower c' = true
    ∧ Forall (λ x, Char.lower x = true) run.
Proof.
  destruct s as [|c s]; simpl; [done|].
  destruct (Char.upper c) eqn:Hc; [|done].
  destruct (span_spec Char.lower s) as [E HF].
  destruct (span Char.lower s) as [[|c' run] rest]; [done|].
  intros [= <-]. simpl in *. apply Forall_cons in HF as [Hc' HF].
  exists c, c', run, rest. by rewrite E at 1.
Qed.

Lemma more_words_spec s :
  (∃ rest, s = more_words s ++ rest)
  ∧ Forall (λ x, Char.upper x || Char.lower x || Char.space x = true)
           (more_words s).
Proof.
  induction s as [s IH] using (induction_ltof1 _ length).
  destruct s as [|w s']; simp more_words; [by split; [exists []|]|].
  destruct (Char.space w) eqn:Hw; simpl; [|by split; [eexists|]].
  destruct (cap_word s') as [word|] eqn:Hword; simpl; [|by split; [eexists|]].
  destruct (cap_word_spec _ _ Hword)
    as (c & c' & run & rest0 & Eword & Es' & Hc & Hc' & Hrun).
  assert (drop (length word) s' = rest0) as ->
    by (by rewrite Es', drop_app_length).
  destruct (IH rest0) as [[rest Erest] HF].
  { unfold ltof. rewrite Es'. simpl. rewrite length_app. lia. }
  split.
  - exists rest. rewrite Es'. rewrite Erest at 1. by rewrite <- app_assoc.
  - constructor; [by rewrite Hw, orb_true_r|].
    apply Forall_app. split; [|done]. rewrite Eword.
    constructor; [by rewrite Hc|]. constructor; [by rewrite Hc', orb_true_r|].
    eapply Forall_impl; [exact Hrun|]. intros x ->. by rewrite orb_true_r.
Qed.

Lemma match_at_spec unicode_alnum before s m :
  match_at unicode_alnum before s = Some m →
  name_shape m ∧ ∃ rest, s = m ++ rest.
Proof.
  unfold match_at. destruct (boundary _ _ _); [|done].
  destruct (cap_word s) as [word|] eqn:Hword; [|done]. intros [= <-].
  destruct (cap_word_spec _ _ Hword)
    as (c & c' & run & rest0 & Eword & Es & Hc & Hc' & Hrun).
  assert (drop (length word) s = rest0) as ->
    by (by rewrite Es, drop_app_length).
  destruct (more_words_spec rest0) as [[rest Erest] HF].
  split.
  - exists c, c', (run ++ more_words rest0). rewrite Eword. split_and!; try done.
    apply Forall_app. split; [|done].
    eapply Forall_impl; [exact Hrun|]. intros x ->. by rewrite orb_true_r.
  - exists rest. rewrite Es. rewrite Erest at 1. by rewrite <- app_assoc.
Qed.

Lemma findall_from_spec unicode_alnum before s m :
  m ∈ findall_from unicode_alnum before s →
  name_shape m ∧ ∃ l r, s = l ++ m ++ r.
Proof.
  revert before. induction s as [s IH] using (induction_ltof1 _ length).
  intros before. destruct s as [|c s']; simp findall_from.
  { by intros ?%elem_of_nil. }
  destruct (inspect (match_at unicode_alnum before (c :: s'))) as [[m0|] Hm0];
    simpl.
  - destruct (match_at_spec _ _ _ _ Hm0) as [Hshape [rest Erest]].
    intros [-> | Hin]%elem_of_cons.
    + split; [done|]. by exists [], rest.
    + assert (drop (length m0) (c :: s') = rest) as Hdrop
        by (by rewrite Erest, drop_app_length).
      rewrite Hdrop in Hin. apply IH in Hin as [Hs (l & r & ->)].
      * split; [done|]. exists (m0 ++ l), r. rewrite Erest. by rewrite <- app_assoc.
      * unfold ltof. rewrite Erest, length_app.
        destruct Hshape as (? & ? & ? & -> & _). simpl. lia.
  - intros Hin. apply IH in Hin as [Hs (l & r & ->)]; [|unfold ltof; simpl; lia].
    split; [done|]. by exists (c :: l), r.
Qed.

(** X11: every name that [extract_stars] returns is a contiguous piece of
    the title, a blank and the description put together; it starts with an
    upper-case ASCII letter followed by a lower-case one, holds only ASCII
    letters and whitespace, and is not a stoplist term. *)
Theorem extract_stars_names unicode_alnum title description m :
  m ∈ extract_stars unicode_alnum title description →
  (∃ before after, title ++ lit " " ++ description = before ++ m ++ after)
  ∧ name_shape m
  ∧ m ∉ ignore.
Proof.
  intros [Hig Hin]%extract_stars_elem_of.
  apply findall_from_spec in Hin as [Hshape Hsub]. done.
Qed.

Lemma extract_stars_names_witness :
  (∃ before after,
     Scenario.title ++ lit " " ++ Scenario.description
     = before ++ lit "Kemi Afolabi" ++ after)
  ∧ name_shape (lit "Kemi Afolabi")
  ∧ lit "Kemi Afolabi" ∉ ignore.
Proof.
  apply (extract_stars_names latin1_alnum Scenario.title Scenario.description).
  apply (bool_decide_unpack _). vm_compute. exact I.
Defined.

(** * The channel lookup *)

(** X1: [get_channel_id] sends the channel lookup and nothing else, prints
    nothing, returns the identifier of the first item when there is one, and
    raises the resolution error otherwise. *)
Theorem get_channel_id_outcome api handle w :
  let resp := Api.channels api (requests w) handle in
  let run := get_channel_id api handle w in
  run.2 = {| requests := requests w ++ [Api.Channels handle];
             stdout := stdout w |}
  ∧ (∀ id, run.1 = Returned id
           ↔ head (default [] (Api.channel_items resp)) = Some id)
  ∧ (∀ e, run.1 = Raised e
          ↔ no_matching_items resp
            ∧ e = ValueError (lit "Could not resolve channel handle " ++ handle))
  ∧ run.1 ≠ OutOfFuel.
Proof.
  unfold get_channel_id, no_matching_items, mbind, Run_bind, http_get.
  cbn zeta beta iota.
  destruct (Api.channel_items (Api.channels api (requests w) handle))
    as [[|id0 ids]|]; simpl; split_and!; try done.
  - intros e. split; [intros [= <-]; auto | by intros [_ ->]].
  - intros id. split; congruence.
  - intros e. split; [done | by intros [[?|?] _]].
  - intros e. split; [intros [= <-]; auto | by intros [_ ->]].
Qed.

(** * The listing *)

Lemma get_channel_videos_loop_step api fuel channel_id page_token videos w :
  get_channel_videos_loop api (S fuel) channel_id page_token videos w
  = let resp := Api.search api (requests w) channel_id (page_param page_token) in
    let w' := {| requests := requests w
                   ++ [Api.Search channel_id (page_param page_token)];
                 stdout := stdout w |} in
    if truthy (Api.nextPageToken resp)
    then get_channel_videos_loop api fuel channel_id (Api.nextPageToken resp)
           (videos ++ page_videos resp) w'
    else (Returned (videos ++ page_videos resp), w').
Proof.
  cbn [get_channel_videos_loop]. unfold mbind, Run_bind, http_get, page_param.
  cbn zeta beta iota. by destruct (truthy (Api.nextPageToken _)).
Qed.

Lemma listing_loop api channel_id sent page_token pages :
  listing api channel_id sent page_token pages →
  ∀ fuel videos w, requests w = sent →
    get_channel_videos_loop api fuel channel_id page_token videos w
    = if decide (length pages ≤ fuel)
      then (Returned (videos ++ (pages ≫= page_videos)),
            {| requests := sent ++ page_requests channel_id page_token pages;
               stdout := stdout w |})
      else (OutOfFuel,
            {| requests := sent ++ take fuel
                             (page_requests channel_id page_token pages);
               stdout := stdout w |}).
Proof.
  induction 1 as [sent page_token Hlast | sent page_token pages Hnext _ IH];
    intros fuel videos w Hw.
  - destruct fuel as [|fuel].
    + rewrite decide_False by (simpl; lia). simpl. unfold out_of_fuel.
      destruct w. simpl in *. by rewrite app_nil_r, Hw.
    + rewrite decide_True by (simpl; lia).
      rewrite get_channel_videos_loop_step. cbn zeta. rewrite Hw, Hlast.
      simpl. by rewrite app_nil_r.
  - destruct fuel as [|fuel].
    + rewrite decide_False by (simpl; lia). simpl. unfold out_of_fuel.
      destruct w. simpl in *. by rewrite app_nil_r, Hw.
    + rewrite get_channel_videos_loop_step. cbn zeta. rewrite Hw, Hnext.
      rewrite IH by done. cbn [length page_requests].
      destruct (decide (length pages ≤ fuel)).
      * rewrite decide_True by lia. rewrite bind_cons.
        by rewrite <- !app_assoc.
      * rewrite decide_False by lia. cbn [take].
        by rewrite <- !app_assoc.
Qed.

(** X2: when the service hands out the pages [pages] for the channel,
    [get_channel_videos] returns their entries in page order as soon as the
    fuel covers one iteration per page, having sent one request per page,
    each with the token of the page before; with less fuel it is still in
    the loop. *)
Theorem get_channel_videos_pages api channel_id w pages :
  listing api channel_id (requests w) None pages →
  (∀ fuel, length pages ≤ fuel →
     get_channel_videos api fuel channel_id w
     = (Returned (pages ≫= page_videos),
        {| requests := requests w ++ page_requests channel_id None pages;
           stdout := stdout w |}))
  ∧ (∀ fuel, fuel < length pages →
       (get_channel_videos api fuel channel_id w).1 = OutOfFuel).
Proof.
  intros Hpages. split; intros fuel Hfuel; unfold get_channel_videos;
    rewrite (listing_loop _ _ _ _ _ Hpages fuel [] w eq_refl).
  - by rewrite decide_True.
  - by rewrite decide_False by lia.
Qed.

Lemma get_channel_videos_pages_witness :
  get_channel_videos Edge.two_pages 2 (lit "UC1") Scenario.start
  = (Returned (video_of_item <$> [Edge.item "v1"; Edge.item "v2"; Edge.item "v3"]),
     {| requests := [Api.Search (lit "UC1") None;
                     Api.Search (lit "UC1") (Some (lit "T"))];
        stdout := [] |}).
Proof.
  pose (first := Api.search Edge.two_pages (requests Scenario.start)
                   (lit "UC1") (page_param None)).
  assert (H : listing Edge.two_pages (lit "UC1") (requests Scenario.start) None
                [first;
                 Api.search Edge.two_pages
                   (requests Scenario.start
                      ++ [Api.Search (lit "UC1") (page_param None)])
                   (lit "UC1") (page_param (Api.nextPageToken first))]).
  { apply listing_next; [reflexivity|]. apply listing_last. reflexivity. }
  exact (proj1 (get_channel_videos_pages Edge.two_pages (lit "UC1")
                  Scenario.start _ H) 2 (le_n 2)).
Defined.

(** X3: when every page of the service names a further page, the listing
    never returns: whatever the fuel, the loop is still running and has sent
    one request per unit of fuel. *)
Theorem get_channel_videos_endless api channel_id :
  (∀ sent page_token,
     truthy (Api.nextPageToken (Api.search api sent channel_id page_token))
     = true) →
  ∀ fuel page_token videos w,
    ∃ w', get_channel_videos_loop api fuel channel_id page_token videos w
          = (OutOfFuel, w')
          ∧ length (requests w') = length (requests w) + fuel.
Proof.
  intros Hmore fuel. induction fuel as [|fuel IH]; intros page_token videos w.
  - exists w. split; [done | lia].
  - rewrite get_channel_videos_loop_step. cbn zeta. rewrite Hmore.
    edestruct IH as (w' & -> & Hlen). exists w'. split; [done|].
    rewrite Hlen. simpl. rewrite length_app. simpl. lia.
Qed.

Lemma get_channel_videos_endless_witness :
  ∃ w', get_channel_videos Edge.endless 1000 (lit "UC1") Scenario.start
        = (OutOfFuel, w')
        ∧ length (requests w') = 1000.
Proof.
  apply (get_channel_videos_endless Edge.endless (lit "UC1")
           (λ _ _, eq_refl) 1000 None [] Scenario.start).
Defined.

(** X4: the listing never raises and never prints; all it sends are listing
    requests for the channel, and what it returns extends the list it
    started from. *)
Theorem get_channel_videos_loop_effects api fuel channel_id page_token videos w :
  let run := get_channel_videos_loop api fuel channel_id page_token videos w in
  (∀ e, run.1 ≠ Raised e)
  ∧ stdout run.2 = stdout w
  ∧ (∃ tokens, requests run.2
               = requests w ++ (Api.Search channel_id <$> tokens))
  ∧ (∀ result, run.1 = Returned result → videos `prefix_of` result).
Proof.
  revert page_token videos w.
  induction fuel as [|fuel IH]; intros page_token videos w.
  - simpl. split_and!; try done. exists []. by rewrite app_nil_r.
  - rewrite get_channel_videos_loop_step. cbn zeta.
    destruct (truthy (Api.nextPageToken _)).
    + edestruct IH as (Hr & Hout & [tokens Hreq] & Hpre).
      split_and!.
      * exact Hr.
      * by rewrite Hout.
      * exists (page_param page_token :: tokens). rewrite Hreq. simpl.
        by rewrite <- app_assoc.
      * intros result Hres. etrans; [|by apply Hpre]. by apply prefix_app_r.
    + simpl. split_and!; try done.
      * by exists [page_param page_token].
      * intros result [= <-]. by apply prefix_app_r.
Qed.

(** * The detail dictionary *)

(** X5: the dictionary built from a detail response maps an identifier to
    the entry of the last item that carries it, and has no entry for an
    identifier that no item carries. *)
Theorem details_of_lookup resp id :
  details_of resp !! id
  = detail_of_item
      <$> last (filter (λ item, Api.video_id item = id)
                       (default [] (Api.video_items resp))).
Proof.
  unfold details_of. generalize (default [] (Api.video_items resp)).
  intros items. induction items as [|item items IH] using rev_ind.
  - done.
  - rewrite foldl_snoc, filter_app, lookup_insert.
    destruct (decide (Api.video_id item = id)) as [Heq|Hne].
    + rewrite filter_cons_True by done. by rewrite filter_nil, last_snoc.
    + rewrite filter_cons_False by done. by rewrite filter_nil, app_nil_r.
Qed.

(** * The batches *)

Lemma for_each_ext {A S} (xs : list A) (body body' : S → A → Run S) s w :
  (∀ s x w, body s x w = body' s x w) →
  for_each xs body s w = for_each xs body' s w.
Proof.
  intros Hext. revert s w. induction xs as [|x xs IH]; intros s w; [done|].
  cbn [for_each]. unfold mbind, Run_bind. rewrite Hext.
  destruct (body' s x w) as [[s'| |] w']; [apply IH | done | done].
Qed.

Lemma chunks_concat {A} (l : list A) n a :
  concat ((λ k, take 50 (drop (0 + k * 50) l)) <$> seq a n)
  = take (n * 50) (drop (a * 50) l).
Proof.
  revert a. induction n as [|n IH]; intros a; [done|].
  cbn [seq fmap list_fmap concat]. rewrite IH. change (0 + a * 50) with (a * 50).
  replace (S a * 50) with (a * 50 + 50) by lia.
  by rewrite <- drop_drop, take_take_drop.
Qed.

Lemma fetch_batches_requests unicode_alnum api videos all_ids n a movies w :
  requests (for_each ((λ k, 0 + k * 50) <$> seq a n)
              (fetch_batch unicode_alnum api videos all_ids) movies w).2
  = requests w
    ++ (Api.Videos <$> ((λ k, take 50 (drop (0 + k * 50) all_ids)) <$> seq a n)).
Proof.
  revert a movies w. induction n as [|n IH]; intros a movies w.
  - simpl. by rewrite app_nil_r.
  - cbn [seq fmap list_fmap for_each]. unfold mbind at 1, Run_bind at 1.
    rewrite fetch_batch_run, IH. simpl. by rewrite <- app_assoc.
Qed.

Lemma batch_count n :
  let count := (n - 0 + 50 - 1) `div` 50 in
  n ≤ count * 50 ∧ count * 50 < n + 50 ∧ count = (n + 49) `div` 50.
Proof.
  intros count. unfold count. replace (n - 0 + 50 - 1) with (n + 49) by lia.
  pose proof (Nat.div_mod_eq (n + 49) 50) as E.
  pose proof (Nat.mod_upper_bound (n + 49) 50). lia.
Qed.

(** X6: the detail requests of [fetch_movies] carry the identifiers of the
    listed videos, in order and once each, in batches of between 1 and 50
    identifiers; there are as many as the count of videos divided by 50,
    rounded up, and none when nothing was listed. *)
Theorem fetch_movies_batches unicode_alnum api videos w :
  ∃ batches,
    requests (fetch_movies unicode_alnum api videos w).2
    = requests w ++ (Api.Videos <$> batches)
    ∧ concat batches = Video.videoId <$> videos
    ∧ Forall (λ batch, 0 < length batch ≤ 50) batches
    ∧ length batches = (length videos + 49) `div` 50.
Proof.
  unfold fetch_movies, range. set (all_ids := Video.videoId <$> videos).
  destruct (batch_count (length all_ids)) as (Hge & Hlt & Hcount).
  set (count := (length all_ids - 0 + 50 - 1) `div` 50) in *.
  exists ((λ k, take 50 (drop (0 + k * 50) all_ids)) <$> seq 0 count).
  split_and!.
  - apply fetch_batches_requests.
  - rewrite chunks_concat. simpl. by rewrite take_ge.
  - apply Forall_fmap, Forall_forall. intros k Hk%elem_of_seq. simpl.
    rewrite length_take, length_drop. lia.
  - rewrite length_fmap, List.length_seq, Hcount. unfold all_ids.
    by rewrite length_fmap.
Qed.

Lemma classify_foldl_exact unicode_alnum details detail_for batch movies :
  (∀ v, v ∈ batch → details !! Video.videoId v = detail_for v) →
  foldl (classify unicode_alnum details) movies batch
  = movies ++ omap (λ v, kept_record unicode_alnum (detail_for v) v) batch.
Proof.
  revert movies. induction batch as [|v batch IH]; intros movies Hd.
  - by rewrite app_nil_r.
  - cbn [foldl]. rewrite IH by (intros; apply Hd; by right).
    assert (classify unicode_alnum details movies v
            = movies ++ option_list (kept_record unicode_alnum (detail_for v) v))
      as ->.
    { unfold classify, kept_record. rewrite (Hd v) by left.
      destruct (detail_for v) as [d|]; simpl; [|by rewrite app_nil_r].
      destruct (minutes_of d <? 15)%Z; [by rewrite app_nil_r | done]. }
    rewrite <- app_assoc. f_equal.
    change (v :: batch) with ([v] ++ batch). rewrite omap_app.
    simpl. by destruct (kept_record _ _ _).
Qed.

Lemma fetch_batches_exact unicode_alnum api videos detail_for n a movies w :
  (∀ sent ids v, v ∈ videos → Video.videoId v ∈ ids →
     details_of (Api.videos api sent ids) !! Video.videoId v = detail_for v) →
  (for_each ((λ k, 0 + k * 50) <$> seq a n)
     (fetch_batch unicode_alnum api videos (Video.videoId <$> videos)) movies w).1
  = Returned (movies
              ++ omap (λ v, kept_record unicode_alnum (detail_for v) v)
                      (take (n * 50) (drop (a * 50) videos))).
Proof.
  intros Hd. revert a movies w. induction n as [|n IH]; intros a movies w.
  - simpl. by rewrite app_nil_r.
  - cbn [seq fmap list_fmap for_each]. unfold mbind at 1, Run_bind at 1.
    rewrite fetch_batch_run, IH.
    rewrite (classify_foldl_exact _ _ detail_for).
    + rewrite <- app_assoc, <- omap_app. change (0 + a * 50) with (a * 50).
      replace (S a * 50) with (a * 50 + 50) by lia.
      by rewrite <- drop_drop, take_take_drop.
    + intros v Hv. apply Hd.
      * by apply subseteq_take, subseteq_drop in Hv.
      * rewrite <- fmap_drop, <- fmap_take. by apply list_elem_of_fmap_2.
Qed.

(** X7: when the service answers every detail request that names a listed
    video with the same entry for it (or with none), the batches do not
    show: [fetch_movies] returns, for the listed videos in order, the record
    of each video that has an entry of at least 15 minutes, and nothing for
    the others. *)
Theorem fetch_movies_exact unicode_alnum api videos
    (detail_for : Video.t → option Detail.t) w :
  (∀ sent ids v, v ∈ videos → Video.videoId v ∈ ids →
     details_of (Api.videos api sent ids) !! Video.videoId v = detail_for v) →
  (fetch_movies unicode_alnum api videos w).1
  = Returned (omap (λ v, kept_record unicode_alnum (detail_for v) v) videos).
Proof.
  intros Hd. unfold fetch_movies, range.
  rewrite (fetch_batches_exact _ _ _ detail_for) by done.
  destruct (batch_count (length (Video.videoId <$> videos))) as (Hge & _ & _).
  rewrite length_fmap in Hge. rewrite length_fmap. simpl.
  by rewrite take_ge.
Qed.

Lemma fetch_movies_exact_witness :
  let videos := replicate 51 Scenario.video in
  let detail := Detail.mk (inject_Z 5400) (lit "1") Scenario.description in
  (fetch_movies latin1_alnum Scenario.api videos Scenario.start).1
  = Returned (omap (λ v, kept_record latin1_alnum (Some detail) v) videos).
Proof.
  intros videos detail.
  apply (fetch_movies_exact latin1_alnum Scenario.api videos (λ _, Some detail)).
  intros sent ids v Hv%elem_of_replicate _. destruct Hv as [-> _].
  reflexivity.
Defined.

(** X16: the description that the listing gives for a video is never used:
    two listings with the same identifiers and titles give the same run of
    [fetch_movies]. *)
Theorem fetch_movies_listing_description_unused unicode_alnum api videos videos' w :
  (λ v, (Video.videoId v, Video.title v)) <$> videos
  = (λ v, (Video.videoId v, Video.title v)) <$> videos' →
  fetch_movies unicode_alnum api videos w
  = fetch_movies unicode_alnum api videos' w.
Proof.
  intros Hkey.
  assert (Video.videoId <$> videos = Video.videoId <$> videos') as Hids.
  { apply (f_equal (fmap fst)) in Hkey. by rewrite <- !list_fmap_compose in Hkey. }
  assert (∀ details l l' movies,
            (λ v, (Video.videoId v, Video.title v)) <$> l
            = (λ v, (Video.videoId v, Video.title v)) <$> l' →
            foldl (classify unicode_alnum details) movies l
            = foldl (classify unicode_alnum details) movies l') as Hfold.
  { intros details l. induction l as [|v l IH]; intros [|v' l'] movies E;
      try done.
    injection E as Hid Htitle E. cbn [foldl].
    assert (classify unicode_alnum details movies v
            = classify unicode_alnum details movies v') as ->
      by (unfold classify, movie_of; by rewrite Hid, Htitle).
    by apply IH. }
  unfold fetch_movies. rewrite <- Hids. apply for_each_ext.
  intros movies i w0. rewrite !fetch_batch_run. do 2 f_equal.
  apply Hfold. by rewrite !fmap_take, !fmap_drop, Hkey.
Qed.

Lemma fetch_movies_listing_description_unused_witness :
  fetch_movies latin1_alnum Scenario.api [Scenario.video] Scenario.start
  = fetch_movies latin1_alnum Scenario.api
      [Video.mk (lit "v1") Scenario.title (lit "Another text. With Names Inside")]
      Scenario.start.
Proof.
  apply (fetch_movies_listing_description_unused latin1_alnum Scenario.api).
  reflexivity.
Defined.

(** * The output and the whole run *)


Lemma main_resolved unicode_alnum api fuel w channel_id others :
  Api.channel_items (Api.channels api (requests w) CHANNEL_HANDLE)
  = Some (channel_id :: others) →
  main unicode_alnum api fuel w
  = (videos ← get_channel_videos api fuel channel_id;
     movies ← fetch_movies unicode_alnum api videos;
     report movies)
      {| requests := requests w ++ [Api.Channels CHANNEL_HANDLE];
         stdout := stdout w ++ [lit "Starting movie fetch..."] |}.
Proof.
  intros Hitems. unfold main. unfold mbind at 1, Run_bind at 1, print at 1.
  unfold mbind at 1, Run_bind at 1, get_channel_id.
  unfold mbind at 1, Run_bind at 1, http_get. cbn [requests stdout].
  by rewrite Hitems.
Qed.





Lemma main_world unicode_alnum api fuel w :
  ∃ more_requests more_lines,
    (main unicode_alnum api fuel w).2
    = {| requests := requests w ++ Api.Channels CHANNEL_HANDLE :: more_requests;
         stdout := stdout w ++ lit "Starting movie fetch..." :: more_lines |}.
Proof.
  assert (∀ items,
            Api.channel_items (Api.channels api (requests w) CHANNEL_HANDLE)
            = items →
            match items with Some (_ :: _) => False | _ => True end →
            (main unicode_alnum api fuel w).2
            = {| requests := requests w ++ [Api.Channels CHANNEL_HANDLE];
                 stdout := stdout w ++ [lit "Starting movie fetch..."] |})
    as Hunresolved.
  { intros items Hitems Hnone. unfold main.
    unfold mbind at 1, Run_bind at 1, print at 1.
    unfold mbind at 1, Run_bind at 1, get_channel_id.
    unfold mbind at 1, Run_bind at 1, http_get. cbn [requests stdout].
    rewrite Hitems. by destruct items as [[|? ?]|]. }
  destruct (Api.channel_items (Api.channels api (requests w) CHANNEL_HANDLE))
    as [[|channel_id others]|] eqn:Hitems.
  - exists [], []. by apply (Hunresolved (Some [])).
  - rewrite (main_resolved _ _ _ _ _ _ Hitems).
    set (w1 := {| requests := _; stdout := _ |}).
    pose proof (get_channel_videos_loop_effects api fuel channel_id None [] w1)
      as (_ & Hout2 & [tokens Hreq2] & _).
    unfold mbind at 1, Run_bind at 1, get_channel_videos.
    destruct (get_channel_videos_loop api fuel channel_id None [] w1)
      as [[videos|e1|] w2]; simpl in Hout2, Hreq2.
    + unfold mbind at 1, Run_bind at 1.
      destruct (fetch_movies_batches unicode_alnum api videos w2)
        as (batches & Hreq3 & _).
      destruct (fetch_movies_returns unicode_alnum api videos w2)
        as (movies & kept & w3 & Hfetch & _ & _ & Hout3).
      rewrite Hfetch in *. simpl in Hreq3. rewrite report_run.
      cbn [snd requests stdout]. rewrite Hreq3, Hreq2, Hout3, Hout2.
      rewrite <- !app_assoc. by eexists _, _.
    + destruct w2 as [r2 o2]. simpl in *. subst.
      rewrite <- !app_assoc. by eexists _, [].
    + destruct w2 as [r2 o2]. simpl in *. subst.
      rewrite <- !app_assoc. by eexists _, [].
  - exists [], []. by apply (Hunresolved None).
Qed.

(** X17: however a run of [main] goes on (an exception, a listing that is
    still running, a normal return), its first request is the channel lookup
    and its first printed line is "Starting movie fetch...". *)
Theorem main_starts unicode_alnum api fuel w :
  let run := main unicode_alnum api fuel w in
  (requests w ++ [Api.Channels CHANNEL_HANDLE]) `prefix_of` requests run.2
  ∧ (stdout w ++ [lit "Starting movie fetch..."]) `prefix_of` stdout run.2.
Proof.
  destruct (main_world unicode_alnum api fuel w) as (rs & ls & E).
  cbn zeta. rewrite E. simpl. split.
  - exists rs. by rewrite <- app_assoc.
  - exists ls. by rewrite <- app_assoc.
Qed.
